(** * Peterson's algorithm and the unsynchronised counter

    A shallow embedding of [c_examples/peterson_algorithm.c] and
    [c_examples/race_condition_example.c].

    Each program is a small transition system: one agent for [main] and
    one per thread created with [pthread_create].  A step of an agent
    executes one statement (one access to shared memory at most); an
    execution is any interleaving of such steps, which is the meaning of
    [memory_order_seq_cst] for the accesses to [flag] and [turn].  The
    plain accesses to [counter] are interleaved in the same way. *)

From Stdlib Require Import ZArith Lia String List Bool.
From stdpp Require Import base tactics option list relations.

Open Scope Z_scope.

(** ** Machine integers

    [int] is 32 bits wide and [long] 64 bits wide (LP64); arithmetic on
    them is written with its wrap-around. *)

Definition INT_MIN : Z := -2147483648.
Definition INT_MAX : Z := 2147483647.
Definition LONG_MIN : Z := -9223372036854775808.
Definition LONG_MAX : Z := 9223372036854775807.

Definition wrap (w : Z) (z : Z) : Z :=
  (z + 2 ^ (w - 1)) mod 2 ^ w - 2 ^ (w - 1).

Definition wrap_int : Z -> Z := wrap 32.
Definition wrap_long : Z -> Z := wrap 64.

(** [#define ITERATIONS 100000], the same in both programs.  The
    programs below take the value of the macro as their parameter [N]. *)
Definition ITERATIONS : Z := 100000.

(** A call of [printf]: the format as it is written in the source, and
    the values of the arguments after it. *)
Record printf_call := Printf { fmt : string; args : list Z }.

(** ** The protected program: [peterson_algorithm.c] *)

Module Peterson.

(** The two locals of [main] whose addresses are handed to the threads. *)
Inductive ptr := Id0 | Id1.

(** Shared memory: the locals [id0], [id1] of [main] (read by the
    threads through their argument) and the globals [flag], [turn] and
    [counter]. *)
Record mem := Mem {
  id0 : Z;
  id1 : Z;
  flag : list bool;
  turn : Z;
  counter : Z
}.

(** Program points of [peterson_process]. *)
Inductive loc :=
| P_entry       (* id = *arg; other = 1 - id; i = 0 *)
| P_test        (* i < ITERATIONS/2 *)
| P_set_flag    (* flag[id] = true *)
| P_set_turn    (* turn = other *)
| P_wait_flag   (* while (flag[other] && ... *)
| P_wait_turn   (*        ... turn == other) { } *)
| P_read        (* long temp = counter *)
| P_add         (* temp = temp + 1 *)
| P_write       (* counter = temp *)
| P_clear       (* flag[id] = false *)
| P_incr        (* i++ *)
| P_done.       (* return NULL *)

(** A thread: its argument, its program point and its locals.  A local
    holds 0 until its declaration is executed. *)
Record thread := Thread {
  arg : ptr;
  pc : loc;
  id : Z;
  other : Z;
  i : Z;
  temp : Z
}.

(** What a step does to shared memory or to the outside world. *)
Inductive action :=
| A_local
| A_load_arg (p : ptr) (v : Z)
| A_load_flag (k : Z) (b : bool)
| A_store_flag (k : Z) (b : bool)
| A_load_turn (v : Z)
| A_store_turn (v : Z)
| A_load_counter (v : Z)
| A_store_counter (v : Z)
| A_spawn (h : nat) (p : ptr)
| A_join (h : nat)
| A_print (lines : list printf_call).

Inductive agent := Main | Thr (h : nat).

(** Program points of [main]. *)
Inductive mloc :=
| M_start       (* int id0 = 0, id1 = 1; the three banner lines *)
| M_create1     (* pthread_create(&t1, NULL, peterson_process, &id0) *)
| M_create2     (* pthread_create(&t2, NULL, peterson_process, &id1) *)
| M_join1       (* pthread_join(t1, NULL) *)
| M_join2       (* pthread_join(t2, NULL) *)
| M_print       (* printf("Actual final value: %ld\n", counter) *)
| M_verdict     (* if (counter == ITERATIONS) ... else ... *)
| M_exit.       (* return 0 *)

(** The whole program.  [threads] is the table of the threads created
    so far, a handle ([pthread_t]) is an index into it; [hist] is the
    history of the actions performed, oldest first. *)
Record state := State {
  mpc : mloc;
  t1 : option nat;
  t2 : option nat;
  threads : list thread;
  memory : mem;
  hist : list (agent * action)
}.

Definition deref (m : mem) (p : ptr) : Z :=
  match p with Id0 => id0 m | Id1 => id1 m end.

(** [flag[k]]: defined for an index inside the array only. *)
Definition flag_load (f : list bool) (k : Z) : option bool :=
  if 0 <=? k then f !! Z.to_nat k else None.

Definition flag_store (f : list bool) (k : Z) (b : bool) : option (list bool) :=
  if (0 <=? k) && (k <? Z.of_nat (length f))
  then Some (<[Z.to_nat k := b]> f) else None.

Definition set_flag (m : mem) (f : list bool) : mem :=
  Mem (id0 m) (id1 m) f (turn m) (counter m).
Definition set_turn (m : mem) (v : Z) : mem :=
  Mem (id0 m) (id1 m) (flag m) v (counter m).
Definition set_counter (m : mem) (v : Z) : mem :=
  Mem (id0 m) (id1 m) (flag m) (turn m) v.

Definition goto (th : thread) (l : loc) : thread :=
  Thread (arg th) l (id th) (other th) (i th) (temp th).
Definition set_i (th : thread) (v : Z) : thread :=
  Thread (arg th) (pc th) (id th) (other th) v (temp th).
Definition set_temp (th : thread) (v : Z) : thread :=
  Thread (arg th) (pc th) (id th) (other th) (i th) v.

(** One step of [peterson_process] with [ITERATIONS = N]. *)
Definition thread_step (N : Z) (m : mem) (th : thread)
  : option (action * mem * thread) :=
  match pc th with
  | P_entry =>
      let v := deref m (arg th) in
      Some (A_load_arg (arg th) v, m,
            Thread (arg th) P_test v (wrap_int (1 - v)) 0 (temp th))
  | P_test =>
      Some (A_local, m,
            goto th (if i th <? N ÷ 2 then P_set_flag else P_done))
  | P_set_flag =>
      f ← flag_store (flag m) (id th) true;
      Some (A_store_flag (id th) true, set_flag m f, goto th P_set_turn)
  | P_set_turn =>
      Some (A_store_turn (other th), set_turn m (other th),
            goto th P_wait_flag)
  | P_wait_flag =>
      b ← flag_load (flag m) (other th);
      Some (A_load_flag (other th) b, m,
            goto th (if b then P_wait_turn else P_read))
  | P_wait_turn =>
      Some (A_load_turn (turn m), m,
            goto th (if turn m =? other th then P_wait_flag else P_read))
  | P_read =>
      Some (A_load_counter (counter m), m,
            goto (set_temp th (counter m)) P_add)
  | P_add =>
      Some (A_local, m, goto (set_temp th (wrap_long (temp th + 1))) P_write)
  | P_write =>
      Some (A_store_counter (temp th), set_counter m (temp th),
            goto th P_clear)
  | P_clear =>
      f ← flag_store (flag m) (id th) false;
      Some (A_store_flag (id th) false, set_flag m f, goto th P_incr)
  | P_incr =>
      Some (A_local, m, goto (set_i th (wrap_int (i th + 1))) P_test)
  | P_done => None
  end.

Definition banner (N : Z) : list printf_call :=
  [ Printf "=== Peterson's Algorithm Demonstration ===\n" [];
    Printf "Expected final value: %d\n" [N];
    Printf "Starting threads with Peterson's mutual exclusion...\n\n" [] ].

(** The lines printed after the final value, [actual] being [counter]. *)
Definition verdict (N actual : Z) : list printf_call :=
  if actual =? N
  then [ Printf "MUTUAL EXCLUSION GUARANTEED - No lost updates\n" [];
         Printf "Peterson's algorithm prevents race conditions\n" [] ]
  else [ Printf "Unexpected result: %ld\n" [actual] ].

Definition returned (ths : list thread) (h : option nat) : bool :=
  match h with
  | Some n =>
      match ths !! n with
      | Some th => match pc th with P_done => true | _ => false end
      | None => false
      end
  | None => false
  end.

(** One step of [main].  [pthread_create] is taken to succeed (the
    source does not look at its result); [pthread_join] can be taken
    only when the thread has returned. *)
Definition main_step (N : Z) (s : state) : option state :=
  let m := memory s in
  let h := hist s in
  match mpc s with
  | M_start =>
      Some (State M_create1 (t1 s) (t2 s) (threads s)
              (Mem 0 1 (flag m) (turn m) (counter m))
              (h ++ [(Main, A_print (banner N))]))
  | M_create1 =>
      let n := length (threads s) in
      Some (State M_create2 (Some n) (t2 s)
              (threads s ++ [Thread Id0 P_entry 0 0 0 0]) m
              (h ++ [(Main, A_spawn n Id0)]))
  | M_create2 =>
      let n := length (threads s) in
      Some (State M_join1 (t1 s) (Some n)
              (threads s ++ [Thread Id1 P_entry 0 0 0 0]) m
              (h ++ [(Main, A_spawn n Id1)]))
  | M_join1 =>
      if returned (threads s) (t1 s)
      then Some (State M_join2 (t1 s) (t2 s) (threads s) m
                   (h ++ [(Main, A_join (default 0%nat (t1 s)))]))
      else None
  | M_join2 =>
      if returned (threads s) (t2 s)
      then Some (State M_print (t1 s) (t2 s) (threads s) m
                   (h ++ [(Main, A_join (default 0%nat (t2 s)))]))
      else None
  | M_print =>
      Some (State M_verdict (t1 s) (t2 s) (threads s) m
              (h ++ [(Main, A_print
                        [Printf "Actual final value: %ld\n" [counter m]])]))
  | M_verdict =>
      Some (State M_exit (t1 s) (t2 s) (threads s) m
              (h ++ [(Main, A_print (verdict N (counter m)))]))
  | M_exit => None
  end.

(** One step of the program, taken by agent [a]. *)
Definition sys_step (N : Z) (a : agent) (s : state) : option state :=
  match a with
  | Main => main_step N s
  | Thr n =>
      th ← threads s !! n;
      '(ac, m, th') ← thread_step N (memory s) th;
      Some (State (mpc s) (t1 s) (t2 s) (<[n := th']> (threads s)) m
              (hist s ++ [(Thr n, ac)]))
  end.

(** The state at program start: the initialisers of the globals. *)
Definition init : state :=
  State M_start None None [] (Mem 0 0 [false; false] 0 0) [].

Definition step (N : Z) (s s' : state) : Prop :=
  ∃ a, sys_step N a s = Some s'.

Definition reachable (N : Z) (s : state) : Prop := rtc (step N) init s.

(** Running a schedule: the agents that take the steps, in order. *)
Fixpoint run (N : Z) (sched : list agent) (s : state) : option state :=
  match sched with
  | [] => Some s
  | a :: rest => s' ← sys_step N a s; run N rest s'
  end.

(** *** Projections of the history *)

Definition agent_eqb (a b : agent) : bool :=
  match a, b with
  | Main, Main => true
  | Thr n, Thr k => Nat.eqb n k
  | _, _ => false
  end.

(** The actions of agent [a], oldest first. *)
Definition actions_of (a : agent) (h : list (agent * action)) : list action :=
  flat_map (fun e => if agent_eqb a (fst e) then [snd e] else []) h.

(** How many times [counter = temp] was executed. *)
Fixpoint count_stores (l : list action) : Z :=
  match l with
  | [] => 0
  | A_store_counter _ :: r => 1 + count_stores r
  | _ :: r => count_stores r
  end.

(** What [main] has written to the console, oldest first (the threads
    call no [printf]). *)
Definition lines_of (ac : action) : list printf_call :=
  match ac with A_print ls => ls | _ => [] end.

Definition printed (h : list (agent * action)) : list printf_call :=
  flat_map lines_of (actions_of Main h).

(** *** Regions of [peterson_process] *)

(** Past the entry wait and before the exit store: the critical section. *)
Definition in_critical (l : loc) : bool :=
  match l with P_read | P_add | P_write | P_clear => true | _ => false end.

(** The entry section: the two stores and the wait. *)
Definition in_entry (l : loc) : bool :=
  match l with
  | P_set_flag | P_set_turn | P_wait_flag | P_wait_turn => true
  | _ => false
  end.

Definition in_wait (l : loc) : bool :=
  match l with P_wait_flag | P_wait_turn => true | _ => false end.

(** Between [flag[id] = true] and [flag[id] = false]. *)
Definition interested (l : loc) : bool :=
  match l with
  | P_set_turn | P_wait_flag | P_wait_turn
  | P_read | P_add | P_write | P_clear => true
  | _ => false
  end.

(** Between [turn = other] and [flag[id] = false]. *)
Definition contending (l : loc) : bool :=
  match l with
  | P_wait_flag | P_wait_turn | P_read | P_add | P_write | P_clear => true
  | _ => false
  end.

(** Inside the body of the [for] loop. *)
Definition in_body (l : loc) : bool :=
  match l with P_entry | P_test | P_done => false | _ => true end.

(** After [counter = temp] and before [i++]. *)
Definition after_write (l : loc) : bool :=
  match l with P_clear | P_incr => true | _ => false end.

(** [main] is past both calls of [pthread_join]. *)
Definition after_joins (l : mloc) : bool :=
  match l with M_print | M_verdict | M_exit => true | _ => false end.

(** Loop iterations whose store to [counter] is done. *)
Definition completed (th : thread) : Z :=
  i th + (if after_write (pc th) then 1 else 0).

(** *** The entry protocol in the words of the specification

    [enter(selfId)], with [otherId = 1 - selfId]: store
    [flag[selfId] = true], store [turn = otherId], then spin while
    [flag[otherId] == true AND turn == otherId]. *)

Definition spec_other (self : Z) : Z := 1 - self.

(** The two stores of [enter], as memory transformers. *)
Definition spec_store_flag (self : Z) (m : mem) : option mem :=
  f ← flag_store (flag m) self true; Some (set_flag m f).

Definition spec_store_turn (self : Z) (m : mem) : mem :=
  set_turn m (spec_other self).

(** The condition under which [enter] keeps spinning. *)
Definition spec_must_wait (self : Z) (m : mem) : option bool :=
  b ← flag_load (flag m) (spec_other self);
  Some (b && (turn m =? spec_other self)).

(** [exit(selfId)]: store [flag[selfId] = false]. *)
Definition spec_exit (self : Z) (m : mem) : option mem :=
  f ← flag_store (flag m) self false; Some (set_flag m f).

(** One evaluation by the code of the condition of its [while] loop,
    on a memory [m] that no other thread changes meanwhile: the load of
    [flag[other]] and, when that is true, the load of [turn]. *)
Definition wait_round (N : Z) (m : mem) (th : thread) : option thread :=
  '(_, _, th1) ← thread_step N m th;
  match pc th1 with
  | P_wait_turn => '(_, _, th2) ← thread_step N m th1; Some th2
  | _ => Some th1
  end.

(** *** Invariants *)

Definition ptr_of (k : nat) : ptr :=
  match k with O => Id0 | _ => Id1 end.

(** The thread with handle [k]; before it is created it stands at the
    entry of [peterson_process]. *)
Definition slot (k : nat) (ths : list thread) : thread :=
  default (Thread (ptr_of k) P_entry 0 0 0 0) (ths !! k).

Definition thread_ok (k : nat) (th : thread) : Prop :=
  arg th = ptr_of k ∧
  (pc th ≠ P_entry → id th = Z.of_nat k ∧ other th = 1 - Z.of_nat k).

Definition protocol_inv (m : mem) (a b : thread) : Prop :=
  thread_ok 0 a ∧ thread_ok 1 b ∧
  flag m = [interested (pc a); interested (pc b)] ∧
  (turn m = 0 ∨ turn m = 1) ∧
  (in_critical (pc a) = true → contending (pc b) = true → turn m = 0) ∧
  (in_critical (pc b) = true → contending (pc a) = true → turn m = 1).

Definition mloc_index (l : mloc) : nat :=
  match l with
  | M_start => 0 | M_create1 => 1 | M_create2 => 2 | M_join1 => 3
  | M_join2 => 4 | M_print => 5 | M_verdict => 6 | M_exit => 7
  end.

(** What [main] does from start to end when the final counter is [c]. *)
Definition main_script (N c : Z) : list action :=
  [ A_print (banner N); A_spawn 0 Id0; A_spawn 1 Id1; A_join 0; A_join 1;
    A_print [Printf "Actual final value: %ld\n" [c]];
    A_print (verdict N c) ].

Definition shape (s : state) : Prop :=
  match mpc s with
  | M_start | M_create1 => threads s = []
  | M_create2 => length (threads s) = 1%nat ∧ t1 s = Some 0%nat
  | M_join1 =>
      length (threads s) = 2%nat ∧ t1 s = Some 0%nat ∧ t2 s = Some 1%nat
  | M_join2 =>
      length (threads s) = 2%nat ∧ t1 s = Some 0%nat ∧ t2 s = Some 1%nat ∧
      pc (slot 0 (threads s)) = P_done
  | M_print | M_verdict | M_exit =>
      length (threads s) = 2%nat ∧ t1 s = Some 0%nat ∧ t2 s = Some 1%nat ∧
      pc (slot 0 (threads s)) = P_done ∧ pc (slot 1 (threads s)) = P_done
  end.

Definition main_inv (N : Z) (s : state) : Prop :=
  shape s ∧
  (mpc s ≠ M_start → id0 (memory s) = 0 ∧ id1 (memory s) = 1) ∧
  actions_of Main (hist s) =
    firstn (mloc_index (mpc s)) (main_script N (counter (memory s))).

Definition inv (N : Z) (s : state) : Prop :=
  main_inv N s ∧
  protocol_inv (memory s) (slot 0 (threads s)) (slot 1 (threads s)).

Definition loop_ok (N : Z) (th : thread) : Prop :=
  0 <= i th <= N ÷ 2 ∧
  (in_body (pc th) = true → i th < N ÷ 2) ∧
  (pc th = P_done → i th = N ÷ 2) ∧
  (pc th = P_entry → i th = 0).

Definition temp_ok (m : mem) (th : thread) : Prop :=
  (pc th = P_add → temp th = counter m) ∧
  (pc th = P_write → temp th = counter m + 1).

Definition counter_inv (N : Z) (s : state) : Prop :=
  let a := slot 0 (threads s) in
  let b := slot 1 (threads s) in
  loop_ok N a ∧ loop_ok N b ∧
  counter (memory s) = completed a + completed b ∧
  temp_ok (memory s) a ∧ temp_ok (memory s) b ∧
  count_stores (actions_of (Thr 0) (hist s)) = completed a ∧
  count_stores (actions_of (Thr 1) (hist s)) = completed b.

(** *** Sample executions *)

Definition state_after (N : Z) (sched : list agent) : state :=
  default init (run N sched init).

(** Both threads created, the first one about to store its flag. *)
Definition sched_enter : list agent :=
  [Main; Main; Main; Thr 0; Thr 0].

(** Both threads have stored [flag] and [turn]; the first is in its
    wait loop and has seen [flag[1]] set. *)
Definition sched_waiting : list agent :=
  sched_enter ++ [Thr 0; Thr 0; Thr 1; Thr 1; Thr 1; Thr 1; Thr 0].

(** The first thread has just left its wait loop. *)
Definition sched_entered : list agent := sched_waiting ++ [Thr 0].

(** The first thread is in the critical section, the second one spins. *)
Definition sched_contend : list agent :=
  sched_entered ++ [Thr 1; Thr 1; Thr 1].

(** The first thread is about to run its exit store. *)
Definition sched_exit : list agent :=
  sched_contend ++ [Thr 0; Thr 0; Thr 1; Thr 0; Thr 1].

(** A whole run with [ITERATIONS = 2], the threads interleaved. *)
Definition sched_whole : list agent :=
  sched_exit ++ [Thr 0; Thr 1; Thr 1; Thr 0; Thr 1; Thr 1; Thr 0;
                 Thr 1; Thr 1; Thr 1; Thr 1; Main; Main; Main; Main].

(** The states these schedules lead to, with the configured
    [ITERATIONS] for the partial runs and with 2 for the whole run. *)
Definition state_waiting : state :=
  Eval vm_compute in state_after ITERATIONS sched_waiting.
Definition state_entered : state :=
  Eval vm_compute in state_after ITERATIONS sched_entered.
Definition state_contend : state :=
  Eval vm_compute in state_after ITERATIONS sched_contend.
Definition state_exit : state :=
  Eval vm_compute in state_after ITERATIONS sched_exit.
Definition state_whole : state :=
  Eval vm_compute in state_after 2 sched_whole.

Definition state_whole_odd : state :=
  Eval vm_compute in state_after 3 sched_whole.

(** The first thread is in its wait loop and has seen [flag[1]] set;
    the second has gone through its critical section and its exit since,
    and [turn] still holds 1. *)
Definition sched_released : list agent :=
  [Main; Main; Main; Thr 1; Thr 1; Thr 1; Thr 1; Thr 0; Thr 0; Thr 0; Thr 0;
   Thr 0; Thr 1; Thr 1; Thr 1; Thr 1; Thr 1; Thr 1; Thr 1].
Definition state_released : state :=
  Eval vm_compute in state_after ITERATIONS sched_released.
Definition state_released_1 : state :=
  Eval vm_compute in state_after ITERATIONS (sched_released ++ [Thr 0]).
Definition state_released_2 : state :=
  Eval vm_compute in
    state_after ITERATIONS (sched_released ++ [Thr 0; Thr 0]).

(** *** Further projections and runs *)

(** The values written by [counter = temp], oldest first. *)
Fixpoint stored_values (h : list (agent * action)) : list Z :=
  match h with
  | [] => []
  | (_, A_store_counter v) :: r => v :: stored_values r
  | _ :: r => stored_values r
  end.

(** The first thread waits; the second one has gone through its
    critical section once since and waits again. *)
Definition sched_overtaken : list agent :=
  [Main; Main; Main; Thr 1; Thr 1; Thr 1; Thr 1; Thr 0; Thr 0; Thr 0; Thr 0;
   Thr 0; Thr 1; Thr 1;
   Thr 1; Thr 1; Thr 1; Thr 1; Thr 1; Thr 1; Thr 1; Thr 1; Thr 1].
Definition state_overtaken : state :=
  Eval vm_compute in state_after ITERATIONS sched_overtaken.

(** Whether an event is the store [turn = other] of thread [k]. *)
Definition is_turn_store (k : nat) (e : agent * action) : bool :=
  match e with
  | (Thr n, A_store_turn _) => Nat.eqb n k
  | _ => false
  end.

(** The events after the last store to [turn] by thread [k]. *)
Definition since_turn (k : nat) (h : list (agent * action))
  : list (agent * action) :=
  fold_left (fun acc e => if is_turn_store k e then [] else acc ++ [e]) h [].

(** How many times [long temp = counter], the first statement of the
    critical section, was executed. *)
Fixpoint count_loads (l : list action) : Z :=
  match l with
  | [] => 0
  | A_load_counter _ :: r => 1 + count_loads r
  | _ :: r => count_loads r
  end.

Definition at_read (l : loc) : Z :=
  match l with P_read => 1 | _ => 0 end.

(** How many times thread [j] has got through its entry wait since
    thread [k] last stored [turn]: its critical sections begun since
    then, and one more when it stands right behind its wait loop. *)
Definition overtakes (k j : nat) (s : state) : Z :=
  count_loads (actions_of (Thr j) (since_turn k (hist s))) +
  at_read (pc (slot j (threads s))).

(** [a] is a thread whose id is [kz], [b] the other one and [e] the
    number of critical sections [b] has begun since [a] stored [turn].
    While [a] waits, [b] gets through once at most, and when it has and
    waits again [turn] holds the id of [a]. *)
Definition bypass_rel (kz : Z) (m : mem) (a b : thread) (e : Z) : Prop :=
  in_wait (pc a) = true →
  0 <= e ∧ e + at_read (pc b) <= 1 ∧
  (e + at_read (pc b) = 1 → in_wait (pc b) = true → turn m = kz).

Definition bypass_inv (s : state) : Prop :=
  bypass_rel 0 (memory s) (slot 0 (threads s)) (slot 1 (threads s))
    (count_loads (actions_of (Thr 1) (since_turn 0 (hist s)))) ∧
  bypass_rel 1 (memory s) (slot 1 (threads s)) (slot 0 (threads s))
    (count_loads (actions_of (Thr 0) (since_turn 1 (hist s)))).

(** How many times [flag[id] = v] was executed. *)
Fixpoint count_flag_stores (v : bool) (l : list action) : Z :=
  match l with
  | [] => 0
  | A_store_flag _ b :: r =>
      (if Bool.eqb b v then 1 else 0) + count_flag_stores v r
  | _ :: r => count_flag_stores v r
  end.

(** A thread and what it has done so far: its entries are its exits and
    one more when it is between the two, its increments are its exits
    and one more when it stands right before its exit store. *)
Definition bracket_rel (th : thread) (acts : list action) : Prop :=
  count_flag_stores true acts =
    count_flag_stores false acts + (if interested (pc th) then 1 else 0) ∧
  count_stores acts =
    count_flag_stores false acts + (match pc th with P_clear => 1 | _ => 0 end).

Definition bracket_inv (s : state) : Prop :=
  bracket_rel (slot 0 (threads s)) (actions_of (Thr 0) (hist s)) ∧
  bracket_rel (slot 1 (threads s)) (actions_of (Thr 1) (hist s)).

(** A thread running alone, on a memory [m] that no one else changes,
    for as long as it is in its wait loop and for [fuel] steps at most. *)
Fixpoint spin (N : Z) (m : mem) (fuel : nat) (th : thread) : option thread :=
  match fuel with
  | O => Some th
  | S f =>
      if in_wait (pc th)
      then '(_, _, th') ← thread_step N m th; spin N m f th'
      else Some th
  end.

End Peterson.

(** ** The unsynchronised baseline: [race_condition_example.c] *)

Module Race.

(** Program points of [increment_counter]. *)
Inductive loc :=
| R_entry       (* i = 0 *)
| R_test        (* i < ITERATIONS/2 *)
| R_read        (* long temp = counter *)
| R_sleep       (* usleep(1) *)
| R_add         (* temp = temp + 1 *)
| R_write       (* counter = temp *)
| R_incr        (* i++ *)
| R_done.       (* return NULL *)

(** A thread; its argument is [NULL] and is never looked at. *)
Record thread := Thread {
  pc : loc;
  i : Z;
  temp : Z
}.

Inductive action :=
| A_local
| A_load_counter (v : Z)
| A_sleep (usec : Z)
| A_store_counter (v : Z)
| A_spawn (h : nat)
| A_join (h : nat)
| A_print (lines : list printf_call).

Inductive agent := Main | Thr (h : nat).

Inductive mloc :=
| M_start       (* the three banner lines *)
| M_create1     (* pthread_create(&t1, NULL, increment_counter, NULL) *)
| M_create2     (* pthread_create(&t2, NULL, increment_counter, NULL) *)
| M_join1       (* pthread_join(t1, NULL) *)
| M_join2       (* pthread_join(t2, NULL) *)
| M_print       (* printf("Actual final value: %ld\n", counter) *)
| M_verdict     (* if (counter < ITERATIONS) ... else ... *)
| M_exit.       (* return 0 *)

Record state := State {
  mpc : mloc;
  t1 : option nat;
  t2 : option nat;
  threads : list thread;
  counter : Z;
  hist : list (agent * action)
}.

(** One step of [increment_counter] with [ITERATIONS = N], on the
    shared [counter] [c]. *)
Definition thread_step (N : Z) (c : Z) (th : thread)
  : option (action * Z * thread) :=
  match pc th with
  | R_entry => Some (A_local, c, Thread R_test 0 (temp th))
  | R_test =>
      Some (A_local, c,
            Thread (if i th <? N ÷ 2 then R_read else R_done) (i th) (temp th))
  | R_read => Some (A_load_counter c, c, Thread R_sleep (i th) c)
  | R_sleep => Some (A_sleep 1, c, Thread R_add (i th) (temp th))
  | R_add =>
      Some (A_local, c, Thread R_write (i th) (wrap_long (temp th + 1)))
  | R_write => Some (A_store_counter (temp th), temp th,
                     Thread R_incr (i th) (temp th))
  | R_incr =>
      Some (A_local, c, Thread R_test (wrap_int (i th + 1)) (temp th))
  | R_done => None
  end.

Definition banner (N : Z) : list printf_call :=
  [ Printf "=== Race Condition Demonstration ===\n" [];
    Printf "Expected final value: %d\n" [N];
    Printf "Starting threads without synchronization...\n\n" [] ].

(** The lines printed after the final value, [actual] being [counter];
    [ITERATIONS - counter] is computed in [long]. *)
Definition verdict (N actual : Z) : list printf_call :=
  if actual <? N
  then [ Printf " RACE CONDITION DETECTED! Lost %ld updates\n"
           [wrap_long (N - actual)];
         Printf "Reason: Both threads read same value before either writes\n"
           [] ]
  else [ Printf "No race detected this run (non-deterministic - try again)\n"
           [] ].

Definition returned (ths : list thread) (h : option nat) : bool :=
  match h with
  | Some n =>
      match ths !! n with
      | Some th => match pc th with R_done => true | _ => false end
      | None => false
      end
  | None => false
  end.

(** One step of [main]; [pthread_create] is taken to succeed and
    [pthread_join] can be taken only when the thread has returned. *)
Definition main_step (N : Z) (s : state) : option state :=
  let c := counter s in
  let h := hist s in
  match mpc s with
  | M_start =>
      Some (State M_create1 (t1 s) (t2 s) (threads s) c
              (h ++ [(Main, A_print (banner N))]))
  | M_create1 =>
      let n := length (threads s) in
      Some (State M_create2 (Some n) (t2 s)
              (threads s ++ [Thread R_entry 0 0]) c
              (h ++ [(Main, A_spawn n)]))
  | M_create2 =>
      let n := length (threads s) in
      Some (State M_join1 (t1 s) (Some n)
              (threads s ++ [Thread R_entry 0 0]) c
              (h ++ [(Main, A_spawn n)]))
  | M_join1 =>
      if returned (threads s) (t1 s)
      then Some (State M_join2 (t1 s) (t2 s) (threads s) c
                   (h ++ [(Main, A_join (default 0%nat (t1 s)))]))
      else None
  | M_join2 =>
      if returned (threads s) (t2 s)
      then Some (State M_print (t1 s) (t2 s) (threads s) c
                   (h ++ [(Main, A_join (default 0%nat (t2 s)))]))
      else None
  | M_print =>
      Some (State M_verdict (t1 s) (t2 s) (threads s) c
              (h ++ [(Main, A_print
                        [Printf "Actual final value: %ld\n" [c]])]))
  | M_verdict =>
      Some (State M_exit (t1 s) (t2 s) (threads s) c
              (h ++ [(Main, A_print (verdict N c))]))
  | M_exit => None
  end.

Definition sys_step (N : Z) (a : agent) (s : state) : option state :=
  match a with
  | Main => main_step N s
  | Thr n =>
      th ← threads s !! n;
      '(ac, c, th') ← thread_step N (counter s) th;
      Some (State (mpc s) (t1 s) (t2 s) (<[n := th']> (threads s)) c
              (hist s ++ [(Thr n, ac)]))
  end.

Definition init : state := State M_start None None [] 0 [].

Definition step (N : Z) (s s' : state) : Prop :=
  ∃ a, sys_step N a s = Some s'.

Definition reachable (N : Z) (s : state) : Prop := rtc (step N) init s.

Fixpoint run (N : Z) (sched : list agent) (s : state) : option state :=
  match sched with
  | [] => Some s
  | a :: rest => s' ← sys_step N a s; run N rest s'
  end.

(** *** Projections of the history *)

Definition agent_eqb (a b : agent) : bool :=
  match a, b with
  | Main, Main => true
  | Thr n, Thr k => Nat.eqb n k
  | _, _ => false
  end.

Definition actions_of (a : agent) (h : list (agent * action)) : list action :=
  flat_map (fun e => if agent_eqb a (fst e) then [snd e] else []) h.

Fixpoint count_stores (l : list action) : Z :=
  match l with
  | [] => 0
  | A_store_counter _ :: r => 1 + count_stores r
  | _ :: r => count_stores r
  end.

Definition lines_of (ac : action) : list printf_call :=
  match ac with A_print ls => ls | _ => [] end.

Definition printed (h : list (agent * action)) : list printf_call :=
  flat_map lines_of (actions_of Main h).

(** *** Regions and invariants *)

Definition in_body (l : loc) : bool :=
  match l with R_entry | R_test | R_done => false | _ => true end.

Definition after_joins (l : mloc) : bool :=
  match l with M_print | M_verdict | M_exit => true | _ => false end.

(** Loop iterations whose store to [counter] is done. *)
Definition completed (th : thread) : Z :=
  i th + (match pc th with R_incr => 1 | _ => 0 end).

Definition slot (k : nat) (ths : list thread) : thread :=
  default (Thread R_entry 0 0) (ths !! k).

Definition mloc_index (l : mloc) : nat :=
  match l with
  | M_start => 0 | M_create1 => 1 | M_create2 => 2 | M_join1 => 3
  | M_join2 => 4 | M_print => 5 | M_verdict => 6 | M_exit => 7
  end.

Definition main_script (N c : Z) : list action :=
  [ A_print (banner N); A_spawn 0; A_spawn 1; A_join 0; A_join 1;
    A_print [Printf "Actual final value: %ld\n" [c]];
    A_print (verdict N c) ].

Definition shape (s : state) : Prop :=
  match mpc s with
  | M_start | M_create1 => threads s = []
  | M_create2 => length (threads s) = 1%nat ∧ t1 s = Some 0%nat
  | M_join1 =>
      length (threads s) = 2%nat ∧ t1 s = Some 0%nat ∧ t2 s = Some 1%nat
  | M_join2 =>
      length (threads s) = 2%nat ∧ t1 s = Some 0%nat ∧ t2 s = Some 1%nat ∧
      pc (slot 0 (threads s)) = R_done
  | M_print | M_verdict | M_exit =>
      length (threads s) = 2%nat ∧ t1 s = Some 0%nat ∧ t2 s = Some 1%nat ∧
      pc (slot 0 (threads s)) = R_done ∧ pc (slot 1 (threads s)) = R_done
  end.

Definition main_inv (N : Z) (s : state) : Prop :=
  shape s ∧
  actions_of Main (hist s) =
    firstn (mloc_index (mpc s)) (main_script N (counter s)).

Definition loop_ok (N : Z) (th : thread) : Prop :=
  0 <= i th <= N ÷ 2 ∧
  (in_body (pc th) = true → i th < N ÷ 2) ∧
  (pc th = R_done → i th = N ÷ 2) ∧
  (pc th = R_entry → i th = 0).

(** The value a thread holds in [temp] never runs ahead of the stores
    done so far, [d] in all. *)
Definition temp_ok (d : Z) (th : thread) : Prop :=
  match pc th with
  | R_sleep | R_add => 0 <= temp th <= d
  | R_write => 1 <= temp th <= d + 1
  | _ => True
  end.

Definition counter_inv (N : Z) (s : state) : Prop :=
  let a := slot 0 (threads s) in
  let b := slot 1 (threads s) in
  let d := completed a + completed b in
  loop_ok N a ∧ loop_ok N b ∧
  0 <= counter s <= d ∧
  temp_ok d a ∧ temp_ok d b ∧
  count_stores (actions_of (Thr 0) (hist s)) = completed a ∧
  count_stores (actions_of (Thr 1) (hist s)) = completed b.

(** *** Sample executions *)

Definition state_after (N : Z) (sched : list agent) : state :=
  default init (run N sched init).

(** A whole run with [ITERATIONS = 2] in which both threads read 0
    before either writes: one update is lost. *)
Definition sched_lost : list agent :=
  [Main; Main; Main; Thr 0; Thr 1; Thr 0; Thr 1; Thr 0; Thr 1;
   Thr 0; Thr 1; Thr 0; Thr 1; Thr 0; Thr 1; Thr 0; Thr 1; Thr 0; Thr 1;
   Main; Main; Main; Main].

Definition state_lost : state := Eval vm_compute in state_after 2 sched_lost.

(** A whole run with [ITERATIONS = 3], one thread after the other. *)
Definition sched_seq : list agent :=
  [Main; Main; Main; Thr 0; Thr 0; Thr 0; Thr 0; Thr 0; Thr 0; Thr 0; Thr 0;
   Thr 1; Thr 1; Thr 1; Thr 1; Thr 1; Thr 1; Thr 1; Thr 1;
   Main; Main; Main; Main].

Definition state_seq_odd : state :=
  Eval vm_compute in state_after 3 sched_seq.

(** *** How low the counter can fall *)

(** A thread that has finished a round of its loop reads a counter that
    is at least 1, so it holds at least 1 in [temp] before it adds one
    and at least 2 when it is about to store. *)
Definition fresh_ok (th : thread) : Prop :=
  1 <= i th →
  match pc th with
  | R_sleep | R_add => 1 <= temp th
  | R_write => 2 <= temp th
  | _ => True
  end.

(** [c] is the counter, [a] and [b] the two threads: after the first
    store the counter is at least 1, and while it is below 2 some thread
    still has a store to do (when each thread does two rounds or more). *)
Definition floor_rel (N : Z) (c : Z) (a b : thread) : Prop :=
  (1 <= completed a ∨ 1 <= completed b → 1 <= c) ∧
  fresh_ok a ∧ fresh_ok b ∧
  (2 <= N ÷ 2 → 2 <= c ∨ completed a < N ÷ 2 ∨ completed b < N ÷ 2).

Definition floor_inv (N : Z) (s : state) : Prop :=
  floor_rel N (counter s) (slot 0 (threads s)) (slot 1 (threads s)).

End Race.

(** * Proofs *)

(** ** Machine integers *)

Lemma wrap_int_small (z : Z) : INT_MIN <= z <= INT_MAX → wrap_int z = z.
Proof.
  unfold wrap_int, wrap, INT_MIN, INT_MAX. intros H.
  change (2 ^ (32 - 1)) with 2147483648. change (2 ^ 32) with 4294967296.
  rewrite Z.mod_small; lia.
Qed.

Lemma wrap_long_small (z : Z) : LONG_MIN <= z <= LONG_MAX → wrap_long z = z.
Proof.
  unfold wrap_long, wrap, LONG_MIN, LONG_MAX. intros H.
  change (2 ^ (64 - 1)) with 9223372036854775808.
  change (2 ^ 64) with 18446744073709551616.
  rewrite Z.mod_small; lia.
Qed.

Lemma quot2_bounds (n : Z) : 0 <= n → 0 <= n ÷ 2 ∧ 2 * (n ÷ 2) <= n.
Proof.
  intros H. rewrite Z.quot_div_nonneg by lia.
  pose proof (Z.div_mod n 2 ltac:(lia)).
  pose proof (Z.mod_pos_bound n 2 ltac:(lia)). lia.
Qed.

Lemma quot2_even (n : Z) : 0 <= n → Z.even n = true → 2 * (n ÷ 2) = n.
Proof.
  intros H He. rewrite Z.quot_div_nonneg by lia.
  apply Z.even_spec in He. destruct He as [k ->].
  rewrite (Z.mul_comm 2 k), Z.div_mul by lia. lia.
Qed.

(** ** The protected program *)

Section PetersonProofs.

Import Peterson.

Variable N : Z.

Lemma actions_of_app a (h1 h2 : list (agent * action)) :
  actions_of a (h1 ++ h2) = actions_of a h1 ++ actions_of a h2.
Proof. unfold actions_of. apply flat_map_app. Qed.

Lemma count_stores_app (l1 l2 : list action) :
  count_stores (l1 ++ l2) = count_stores l1 + count_stores l2.
Proof.
  induction l1 as [|x l1 IH]; simpl; [lia|].
  destruct x; rewrite ?IH; lia.
Qed.

Lemma slot_lookup k (ths : list thread) th :
  ths !! k = Some th → slot k ths = th.
Proof. unfold slot. intros ->. reflexivity. Qed.

Lemma contending_interested l : contending l = true → interested l = true.
Proof. destruct l; simpl; congruence. Qed.

Lemma critical_contending l : in_critical l = true → contending l = true.
Proof. destruct l; simpl; congruence. Qed.

Lemma wrap_int_0 : wrap_int (1 - 1) = 0.
Proof. reflexivity. Qed.

Lemma wrap_int_1 : wrap_int (1 - 0) = 1.
Proof. reflexivity. Qed.

(** Case analysis on the program points of both threads. *)
Ltac protocol_cases :=
  simpl in *; simplify_eq; simpl in *;
  rewrite ?wrap_int_0, ?wrap_int_1;
  repeat case_match; simpl in *;
  repeat match goal with
    | H : (_ =? _) = true |- _ => apply Z.eqb_eq in H
    | H : (_ =? _) = false |- _ => apply Z.eqb_neq in H
    end;
  repeat split; intros; simplify_eq;
  try done; try lia;
  try (intuition (first [discriminate | lia | congruence])).

(** A step of the first thread keeps the protocol invariant. *)
Lemma protocol_step_0 m a b ac m' a' :
  id0 m = 0 → id1 m = 1 →
  protocol_inv m a b →
  thread_step N m a = Some (ac, m', a') →
  protocol_inv m' a' b ∧ id0 m' = 0 ∧ id1 m' = 1.
Proof.
  intros Hi0 Hi1 (Ha & Hb & Hf & Ht & Hm0 & Hm1) Hs.
  destruct m as [i0 i1 fl tn cnt], a as [p l k o n t], b as [pb lb kb ob nb tb].
  unfold thread_ok in *. simpl in *. subst.
  destruct Ha as [Hp Ha]. simpl in Hp, Ha. subst p.
  unfold thread_step in Hs; simpl in Hs.
  unfold protocol_inv, thread_ok.
  destruct l; [| destruct Ha as [-> ->]; [discriminate|] ..].
  all: destruct lb; protocol_cases.
Qed.

(** A step of the second thread keeps the protocol invariant. *)
Lemma protocol_step_1 m a b ac m' b' :
  id0 m = 0 → id1 m = 1 →
  protocol_inv m a b →
  thread_step N m b = Some (ac, m', b') →
  protocol_inv m' a b' ∧ id0 m' = 0 ∧ id1 m' = 1.
Proof.
  intros Hi0 Hi1 (Ha & Hb & Hf & Ht & Hm0 & Hm1) Hs.
  destruct m as [i0 i1 fl tn cnt], a as [p l k o n t], b as [pb lb kb ob nb tb].
  unfold thread_ok in *. simpl in *. subst.
  destruct Hb as [Hp Hb]. simpl in Hp, Hb. subst pb.
  unfold thread_step in Hs; simpl in Hs.
  unfold protocol_inv, thread_ok.
  destruct lb; [| destruct Hb as [-> ->]; [discriminate|] ..].
  all: destruct l; protocol_cases.
Qed.

Lemma thread_step_not_done m th r :
  thread_step N m th = Some r → pc th ≠ P_done.
Proof. unfold thread_step. intros H E. rewrite E in H. discriminate. Qed.

Lemma inv_init : inv N init.
Proof.
  unfold inv, main_inv, protocol_inv, thread_ok, shape, init. simpl.
  repeat split; auto; try discriminate; try congruence.
Qed.

Lemma inv_main_step s s' : inv N s → main_step N s = Some s' → inv N s'.
Proof.
  intros [(Hsh & Hid & Hh) Hp] Hs.
  destruct s as [l h1 h2 ths m h]. unfold main_step in Hs.
  unfold inv, main_inv, shape in *. simpl in *.
  destruct l; simpl in *; destruct_and?.
  all: destruct ths as [|a [|b [|c ths]]]; simpl in *; try discriminate.
  all: subst.
  all: unfold returned in *; simpl in *; repeat case_match; simplify_eq.
  all: simpl; rewrite ?actions_of_app, ?Hh; simpl.
  all: destruct m; unfold protocol_inv, slot in *; simpl in *.
  all: intuition (try congruence).
Qed.

Lemma inv_thread_step s s' n :
  inv N s → sys_step N (Thr n) s = Some s' → inv N s'.
Proof.
  intros [(Hsh & Hid & Hh) Hp] Hs.
  destruct s as [l h1 h2 ths m h]. unfold sys_step in Hs. simpl in *.
  destruct (ths !! n) as [th|] eqn:En; simpl in Hs; [|discriminate].
  destruct (thread_step N m th) as [[[ac m'] th']|] eqn:Et;
    simpl in Hs; [|discriminate].
  simplify_eq.
  pose proof (thread_step_not_done _ _ _ Et) as Hnd.
  unfold inv, main_inv, shape, slot in *. simpl in *.
  rewrite actions_of_app. simpl. rewrite app_nil_r.
  destruct ths as [|a [|b [|c ths]]]; destruct n as [|[|n]];
    simpl in *; simplify_eq.
  all: destruct l; simpl in *; destruct_and?; simplify_eq.
  all: destruct (Hid ltac:(discriminate)) as [Hid0 Hid1].
  all: first
    [ destruct (protocol_step_0 _ _ _ _ _ _ Hid0 Hid1 Hp Et) as (Hp' & ? & ?)
    | destruct (protocol_step_1 _ _ _ _ _ _ Hid0 Hid1 Hp Et) as (Hp' & ? & ?) ].
  all: split; [|exact Hp'].
  all: repeat split; auto.
Qed.

Lemma inv_step s s' : inv N s → step N s s' → inv N s'.
Proof.
  intros Hi [[|n] Hs]; simpl in Hs.
  - eapply inv_main_step; eauto.
  - eapply inv_thread_step; eauto.
Qed.

Lemma reachable_inv s : reachable N s → inv N s.
Proof.
  unfold reachable. revert s. apply rtc_ind_r.
  - apply inv_init.
  - intros y z _ Hyz Hy. eapply inv_step; eauto.
Qed.

Lemma protocol_mutex m a b :
  protocol_inv m a b →
  in_critical (pc a) = true → in_critical (pc b) = true → False.
Proof.
  intros (_ & _ & _ & _ & H0 & H1) Ha Hb.
  pose proof (H0 Ha (critical_contending _ Hb)).
  pose proof (H1 Hb (critical_contending _ Ha)). lia.
Qed.

(** *** The counter *)

Hypothesis N_range : 0 <= N <= INT_MAX.

Lemma completed_le th : loop_ok N th → 0 <= completed th <= N ÷ 2.
Proof.
  unfold loop_ok, completed. intros (H1 & H2 & _).
  destruct (pc th); simpl in *; try lia.
  all: specialize (H2 eq_refl); lia.
Qed.

(** A step of either thread, seen from the counter: [a] steps, [b] is
    the other thread. *)
Lemma counter_thread_step m a b ac m' a' :
  (in_critical (pc a) = true → in_critical (pc b) = true → False) →
  loop_ok N a → loop_ok N b →
  counter m = completed a + completed b →
  temp_ok m a → temp_ok m b →
  thread_step N m a = Some (ac, m', a') →
  loop_ok N a' ∧
  counter m' = completed a' + completed b ∧
  temp_ok m' a' ∧ temp_ok m' b ∧
  count_stores [ac] = completed a' - completed a.
Proof.
  intros Hmx La Lb Hc Ta Tb Hs.
  pose proof (completed_le _ La) as Ca.
  pose proof (completed_le _ Lb) as Cb.
  pose proof (quot2_bounds N ltac:(lia)) as [Hq1 Hq2].
  pose proof N_range as [Hn1 Hn2].
  destruct m as [i0 i1 fl tn cnt], a as [p l k o n t].
  destruct b as [pb lb kb ob nb tb].
  unfold thread_step in Hs. unfold loop_ok, temp_ok, completed in *.
  simpl in *.
  destruct La as (La1 & La2 & La3 & La4), Lb as (Lb1 & Lb2 & Lb3 & Lb4).
  destruct Ta as [Ta1 Ta2], Tb as [Tb1 Tb2].
  destruct l; simpl in Hs.
  all: try match type of Hs with
         | context [flag_store ?f ?x ?v] =>
             destruct (flag_store f x v); simpl in Hs; [|discriminate]
         | context [flag_load ?f ?x] =>
             destruct (flag_load f x) as [[|]|]; simpl in Hs;
             try discriminate
         | context [?x <? ?y] => destruct (Z.ltb_spec x y)
         | context [?x =? ?y] => destruct (Z.eqb_spec x y)
         end.
  all: simplify_eq; destruct lb; simpl in *.
  all: repeat match goal with
         | H : ?x = ?x → _ |- _ => specialize (H eq_refl)
         end.
  all: try (exfalso; auto; fail).
  all: rewrite ?wrap_long_small, ?wrap_int_small
         by (unfold LONG_MIN, LONG_MAX, INT_MIN, INT_MAX in *; lia).
  all: repeat split; intros; try discriminate; try lia.
Qed.

Lemma counter_inv_init : counter_inv N init.
Proof.
  pose proof (quot2_bounds N ltac:(lia)) as [Hq1 Hq2].
  unfold counter_inv, loop_ok, temp_ok, completed, slot, init. simpl.
  repeat split; intros; try discriminate; try lia.
Qed.

Lemma counter_inv_main_step s s' :
  inv N s → counter_inv N s → main_step N s = Some s' → counter_inv N s'.
Proof.
  intros [(Hsh & _ & _) _] Hc Hs.
  destruct s as [l h1 h2 ths m h]. unfold main_step in Hs.
  unfold counter_inv, shape in *. simpl in *.
  destruct l; simpl in *.
  all: destruct ths as [|a [|b [|c ths]]]; simpl in *;
    destruct_and? Hsh; try discriminate.
  all: repeat case_match; simplify_eq; simpl.
  all: rewrite !actions_of_app; simpl; rewrite !app_nil_r; exact Hc.
Qed.

Lemma counter_inv_thread_step s s' n :
  inv N s → counter_inv N s → sys_step N (Thr n) s = Some s' →
  counter_inv N s'.
Proof.
  intros [(Hsh & _ & _) Hp] Hc Hs.
  destruct s as [l h1 h2 ths m h]. unfold sys_step in Hs. simpl in *.
  destruct (ths !! n) as [th|] eqn:En; simpl in Hs; [|discriminate].
  destruct (thread_step N m th) as [[[ac m'] th']|] eqn:Et;
    simpl in Hs; [|discriminate].
  simplify_eq.
  pose proof (protocol_mutex _ _ _ Hp) as Hmx.
  unfold counter_inv, shape, slot in *. simpl in *.
  destruct Hc as (La & Lb & Hc & Ta & Tb & Ha & Hb).
  rewrite !actions_of_app, !count_stores_app. simpl.
  assert (Hlen : (length ths <= 2)%nat).
  { destruct l; simpl in Hsh; destruct_and? Hsh; subst; simpl; lia. }
  clear Hsh.
  destruct ths as [|a [|b [|c ths]]]; destruct n as [|[|n]];
    simpl in *; simplify_eq; try lia.
  1, 2: match type of Lb with loop_ok _ ?b =>
          destruct (counter_thread_step m th b ac m' th')
            as (? & ? & ? & ? & Hcs); auto
        end.
  3: destruct (counter_thread_step m th a ac m' th') as (? & ? & ? & ? & Hcs);
    auto; try lia.
  all: simpl in Hcs.
  all: refine (conj _ (conj _ (conj _ (conj _ (conj _ (conj _ _))))));
    first [assumption | lia].
Qed.

Lemma reachable_counter_inv s : reachable N s → counter_inv N s.
Proof.
  intros H. cut (inv N s ∧ counter_inv N s); [tauto|].
  revert s H. apply rtc_ind_r.
  - split; [apply inv_init | apply counter_inv_init].
  - intros y z _ Hyz [Hy Hc]. split; [eapply inv_step; eauto|].
    destruct Hyz as [[|n] Hs]; simpl in Hs.
    + eapply counter_inv_main_step; eauto.
    + eapply counter_inv_thread_step; eauto.
Qed.

End PetersonProofs.

(** ** The unsynchronised baseline *)

Section RaceProofs.

Import Race.

Variable N : Z.

Lemma race_actions_of_app a (h1 h2 : list (agent * action)) :
  actions_of a (h1 ++ h2) = actions_of a h1 ++ actions_of a h2.
Proof. unfold actions_of. apply flat_map_app. Qed.

Lemma race_count_stores_app (l1 l2 : list action) :
  count_stores (l1 ++ l2) = count_stores l1 + count_stores l2.
Proof.
  induction l1 as [|x l1 IH]; simpl; [lia|].
  destruct x; rewrite ?IH; lia.
Qed.

Lemma race_slot_lookup k (ths : list thread) th :
  ths !! k = Some th → slot k ths = th.
Proof. unfold slot. intros ->. reflexivity. Qed.

Lemma race_thread_step_not_done c th r :
  thread_step N c th = Some r → pc th ≠ R_done.
Proof. unfold thread_step. intros H E. rewrite E in H. discriminate. Qed.

Lemma race_main_inv_init : main_inv N init.
Proof. unfold main_inv, shape, init. simpl. auto. Qed.

Lemma race_main_inv_main_step s s' :
  main_inv N s → main_step N s = Some s' → main_inv N s'.
Proof.
  intros (Hsh & Hh) Hs.
  destruct s as [l h1 h2 ths c h]. unfold main_step in Hs.
  unfold main_inv, shape in *. simpl in *.
  destruct l; simpl in *; destruct_and?.
  all: destruct ths as [|a [|b [|d ths]]]; simpl in *; try discriminate.
  all: subst.
  all: unfold returned in *; simpl in *; repeat case_match; simplify_eq.
  all: simpl; rewrite ?race_actions_of_app, ?Hh; simpl.
  all: unfold slot in *; simpl in *.
  all: intuition (try congruence).
Qed.

Lemma race_main_inv_thread_step s s' n :
  main_inv N s → sys_step N (Thr n) s = Some s' → main_inv N s'.
Proof.
  intros (Hsh & Hh) Hs.
  destruct s as [l h1 h2 ths c h]. unfold sys_step in Hs. simpl in *.
  destruct (ths !! n) as [th|] eqn:En; simpl in Hs; [|discriminate].
  destruct (thread_step N c th) as [[[ac c'] th']|] eqn:Et;
    simpl in Hs; [|discriminate].
  simplify_eq.
  pose proof (race_thread_step_not_done _ _ _ Et) as Hnd.
  unfold main_inv, shape, slot in *. simpl in *.
  rewrite race_actions_of_app. simpl. rewrite app_nil_r.
  destruct ths as [|a [|b [|d ths]]]; destruct n as [|[|n]];
    simpl in *; simplify_eq.
  all: destruct l; simpl in *; destruct_and?; simplify_eq.
  all: repeat split; auto.
Qed.

Lemma race_reachable_main_inv s : reachable N s → main_inv N s.
Proof.
  unfold reachable. revert s. apply rtc_ind_r.
  - apply race_main_inv_init.
  - intros y z _ [[|n] Hs] Hy; simpl in Hs.
    + eapply race_main_inv_main_step; eauto.
    + eapply race_main_inv_thread_step; eauto.
Qed.

(** *** The counter *)

Hypothesis N_range : 0 <= N <= INT_MAX.

Lemma race_completed_le th : loop_ok N th → 0 <= completed th <= N ÷ 2.
Proof.
  unfold loop_ok, completed. intros (H1 & H2 & _).
  destruct (pc th); simpl in *; try lia.
  all: specialize (H2 eq_refl); lia.
Qed.

(** A step of either thread: [a] steps, [b] is the other thread. *)
Lemma race_counter_thread_step c a b ac c' a' :
  loop_ok N a → loop_ok N b →
  0 <= c <= completed a + completed b →
  temp_ok (completed a + completed b) a →
  temp_ok (completed a + completed b) b →
  thread_step N c a = Some (ac, c', a') →
  loop_ok N a' ∧
  0 <= c' <= completed a' + completed b ∧
  temp_ok (completed a' + completed b) a' ∧
  temp_ok (completed a' + completed b) b ∧
  count_stores [ac] = completed a' - completed a.
Proof.
  intros La Lb Hc Ta Tb Hs.
  pose proof (race_completed_le _ La) as Ca.
  pose proof (race_completed_le _ Lb) as Cb.
  pose proof (quot2_bounds N ltac:(lia)) as [Hq1 Hq2].
  pose proof N_range as [Hn1 Hn2].
  destruct a as [l n t], b as [lb nb tb].
  unfold thread_step in Hs. unfold loop_ok, temp_ok, completed in *.
  simpl in *.
  destruct La as (La1 & La2 & La3 & La4), Lb as (Lb1 & Lb2 & Lb3 & Lb4).
  destruct l; simpl in Hs.
  all: try match type of Hs with
         | context [?x <? ?y] => destruct (Z.ltb_spec x y)
         end.
  all: simplify_eq; destruct lb; simpl in *.
  all: repeat match goal with
         | H : ?x = ?x → _ |- _ => specialize (H eq_refl)
         end.
  all: rewrite ?wrap_long_small, ?wrap_int_small
         by (unfold LONG_MIN, LONG_MAX, INT_MIN, INT_MAX in *; lia).
  all: repeat split; intros; try discriminate; try lia.
Qed.

Lemma race_counter_inv_init : counter_inv N init.
Proof.
  pose proof (quot2_bounds N ltac:(lia)) as [Hq1 Hq2].
  unfold counter_inv, loop_ok, temp_ok, completed, slot, init. simpl.
  repeat split; intros; try discriminate; try lia.
Qed.

Lemma race_counter_inv_main_step s s' :
  main_inv N s → counter_inv N s → main_step N s = Some s' →
  counter_inv N s'.
Proof.
  intros (Hsh & _) Hc Hs.
  destruct s as [l h1 h2 ths c h]. unfold main_step in Hs.
  unfold counter_inv, shape in *. simpl in *.
  destruct l; simpl in *.
  all: destruct ths as [|a [|b [|d ths]]]; simpl in *;
    destruct_and? Hsh; try discriminate.
  all: repeat case_match; simplify_eq; simpl.
  all: rewrite !race_actions_of_app; simpl; rewrite !app_nil_r; exact Hc.
Qed.

Lemma race_counter_inv_thread_step s s' n :
  main_inv N s → counter_inv N s → sys_step N (Thr n) s = Some s' →
  counter_inv N s'.
Proof.
  intros (Hsh & _) Hc Hs.
  destruct s as [l h1 h2 ths c h]. unfold sys_step in Hs. simpl in *.
  destruct (ths !! n) as [th|] eqn:En; simpl in Hs; [|discriminate].
  destruct (thread_step N c th) as [[[ac c'] th']|] eqn:Et;
    simpl in Hs; [|discriminate].
  simplify_eq.
  unfold counter_inv, shape, slot in *. simpl in *.
  destruct Hc as (La & Lb & Hc & Ta & Tb & Ha & Hb).
  rewrite !race_actions_of_app, !race_count_stores_app. simpl.
  assert (Hlen : (length ths <= 2)%nat).
  { destruct l; simpl in Hsh; destruct_and? Hsh; subst; simpl; lia. }
  clear Hsh.
  destruct ths as [|a [|b [|d ths]]]; destruct n as [|[|n]];
    simpl in *; simplify_eq; try lia.
  1, 2: match type of Lb with loop_ok _ ?b =>
          destruct (race_counter_thread_step c th b ac c' th')
            as (? & ? & ? & ? & Hcs); auto
        end.
  3: rewrite (Z.add_comm (completed a)) in *;
     destruct (race_counter_thread_step c th a ac c' th')
       as (? & ? & ? & ? & Hcs); auto.
  all: simpl in Hcs.
  all: refine (conj _ (conj _ (conj _ (conj _ (conj _ (conj _ _))))));
    first [assumption | lia].
Qed.

Lemma race_reachable_counter_inv s : reachable N s → counter_inv N s.
Proof.
  intros H. cut (main_inv N s ∧ counter_inv N s); [tauto|].
  revert s H. apply rtc_ind_r.
  - split; [apply race_main_inv_init | apply race_counter_inv_init].
  - intros y z _ [[|n] Hs] [Hy Hc]; simpl in Hs.
    + split; [eapply race_main_inv_main_step; eauto|].
      eapply race_counter_inv_main_step; eauto.
    + split; [eapply race_main_inv_thread_step; eauto|].
      eapply race_counter_inv_thread_step; eauto.
Qed.

End RaceProofs.

(** ** Executions given by a schedule *)

Lemma peterson_run_steps N sched s s' :
  Peterson.run N sched s = Some s' → rtc (Peterson.step N) s s'.
Proof.
  revert s. induction sched as [|a sched IH]; simpl; intros s H.
  - injection H as ->. apply rtc_refl.
  - destruct (Peterson.sys_step N a s) as [s1|] eqn:E; simpl in H;
      [|discriminate].
    eapply rtc_l; [exists a; exact E | apply IH, H].
Qed.

Lemma peterson_run_reachable N sched s :
  Peterson.run N sched Peterson.init = Some s → Peterson.reachable N s.
Proof. apply peterson_run_steps. Qed.

Lemma race_run_steps N sched s s' :
  Race.run N sched s = Some s' → rtc (Race.step N) s s'.
Proof.
  revert s. induction sched as [|a sched IH]; simpl; intros s H.
  - injection H as ->. apply rtc_refl.
  - destruct (Race.sys_step N a s) as [s1|] eqn:E; simpl in H;
      [|discriminate].
    eapply rtc_l; [exists a; exact E | apply IH, H].
Qed.

Lemma race_run_reachable N sched s :
  Race.run N sched Race.init = Some s → Race.reachable N s.
Proof. apply race_run_steps. Qed.

(** ** Threads of a reachable state *)

Lemma peterson_threads_cases N s n th :
  Peterson.inv N s → Peterson.threads s !! n = Some th →
  (n = 0%nat ∨ n = 1%nat) ∧ th = Peterson.slot n (Peterson.threads s).
Proof.
  intros [(Hsh & _) _] Hn.
  split; [|symmetry; apply slot_lookup, Hn].
  apply lookup_lt_Some in Hn.
  unfold Peterson.shape in Hsh.
  destruct (Peterson.mpc s); destruct_and?;
    repeat match goal with H : Peterson.threads s = _ |- _ =>
      rewrite H in Hn; simpl in Hn end; lia.
Qed.

Lemma race_threads_cases N s n th :
  Race.main_inv N s → Race.threads s !! n = Some th →
  (n = 0%nat ∨ n = 1%nat) ∧ th = Race.slot n (Race.threads s).
Proof.
  intros (Hsh & _) Hn.
  split; [|symmetry; apply race_slot_lookup, Hn].
  apply lookup_lt_Some in Hn.
  unfold Race.shape in Hsh.
  destruct (Race.mpc s); destruct_and?;
    repeat match goal with H : Race.threads s = _ |- _ =>
      rewrite H in Hn; simpl in Hn end; lia.
Qed.

(** ** A run to completion exists *)

Section PetersonTermination.

Import Peterson.

Variable N : Z.
Hypothesis N_range : 0 <= N <= INT_MAX.

Ltac solo_step k :=
  eapply rtc_l;
  [ exists (Thr k); unfold sys_step, thread_step; simpl;
    rewrite ?wrap_long_small, ?wrap_int_small
      by (unfold LONG_MIN, LONG_MAX, INT_MIN, INT_MAX in *; lia);
    reflexivity
  | simpl ].

(** One round of the loop of the first thread, the second one idle. *)
Lemma peterson_round_0 l h1 h2 j t b tn c h :
  0 <= j < N ÷ 2 → 0 <= c < INT_MAX →
  ∃ h' t',
    rtc (step N)
      (State l h1 h2 [Thread Id0 P_test 0 1 j t; b]
         (Mem 0 1 [false; false] tn c) h)
      (State l h1 h2 [Thread Id0 P_test 0 1 (j + 1) t'; b]
         (Mem 0 1 [false; false] 1 (c + 1)) h').
Proof.
  intros Hj Hc. pose proof N_range as [Hn1 Hn2].
  pose proof (quot2_bounds N Hn1) as [Hq1 Hq2].
  do 2 eexists.
  eapply rtc_l.
  { exists (Thr 0). unfold sys_step, thread_step. simpl.
    rewrite (proj2 (Z.ltb_lt _ _) (proj2 Hj)). reflexivity. }
  simpl.
  do 8 solo_step 0%nat.
  apply rtc_refl.
Qed.

(** One round of the loop of the second thread, the first one idle. *)
Lemma peterson_round_1 l h1 h2 j t a tn c h :
  0 <= j < N ÷ 2 → 0 <= c < INT_MAX →
  ∃ h' t',
    rtc (step N)
      (State l h1 h2 [a; Thread Id1 P_test 1 0 j t]
         (Mem 0 1 [false; false] tn c) h)
      (State l h1 h2 [a; Thread Id1 P_test 1 0 (j + 1) t']
         (Mem 0 1 [false; false] 0 (c + 1)) h').
Proof.
  intros Hj Hc. pose proof N_range as [Hn1 Hn2].
  pose proof (quot2_bounds N Hn1) as [Hq1 Hq2].
  do 2 eexists.
  eapply rtc_l.
  { exists (Thr 1). unfold sys_step, thread_step. simpl.
    rewrite (proj2 (Z.ltb_lt _ _) (proj2 Hj)). reflexivity. }
  simpl.
  do 8 solo_step 1%nat.
  apply rtc_refl.
Qed.

(** The rounds that are left, then the test that ends the loop. *)
Lemma peterson_loop_0 l h1 h2 b (n : nat) :
  ∀ j t tn c h,
    0 <= j → j + Z.of_nat n = N ÷ 2 →
    0 <= c → c + Z.of_nat n <= INT_MAX →
    ∃ h' t' tn',
      rtc (step N)
        (State l h1 h2 [Thread Id0 P_test 0 1 j t; b]
           (Mem 0 1 [false; false] tn c) h)
        (State l h1 h2 [Thread Id0 P_done 0 1 (N ÷ 2) t'; b]
           (Mem 0 1 [false; false] tn' (c + Z.of_nat n)) h').
Proof.
  induction n as [|n IH]; intros j t tn c h Hj Hjn Hc Hcn.
  - do 3 eexists. eapply rtc_l; [|apply rtc_refl].
    exists (Thr 0). unfold sys_step, thread_step. simpl.
    rewrite (proj2 (Z.ltb_ge _ _)) by lia.
    replace (c + Z.of_nat 0) with c by lia. replace (N ÷ 2) with j by lia.
    reflexivity.
  - destruct (peterson_round_0 l h1 h2 j t b tn c h) as (h' & t' & Hr);
      [lia | lia |].
    destruct (IH (j + 1) t' 1 (c + 1) h') as (h2' & t2' & tn2 & Hl);
      [lia | lia | lia | lia |].
    exists h2', t2', tn2.
    replace (c + Z.of_nat (S n)) with (c + 1 + Z.of_nat n) by lia.
    etrans; eauto.
Qed.

Lemma peterson_loop_1 l h1 h2 a (n : nat) :
  ∀ j t tn c h,
    0 <= j → j + Z.of_nat n = N ÷ 2 →
    0 <= c → c + Z.of_nat n <= INT_MAX →
    ∃ h' t' tn',
      rtc (step N)
        (State l h1 h2 [a; Thread Id1 P_test 1 0 j t]
           (Mem 0 1 [false; false] tn c) h)
        (State l h1 h2 [a; Thread Id1 P_done 1 0 (N ÷ 2) t']
           (Mem 0 1 [false; false] tn' (c + Z.of_nat n)) h').
Proof.
  induction n as [|n IH]; intros j t tn c h Hj Hjn Hc Hcn.
  - do 3 eexists. eapply rtc_l; [|apply rtc_refl].
    exists (Thr 1). unfold sys_step, thread_step. simpl.
    rewrite (proj2 (Z.ltb_ge _ _)) by lia.
    replace (c + Z.of_nat 0) with c by lia. replace (N ÷ 2) with j by lia.
    reflexivity.
  - destruct (peterson_round_1 l h1 h2 j t a tn c h) as (h' & t' & Hr);
      [lia | lia |].
    destruct (IH (j + 1) t' 0 (c + 1) h') as (h2' & t2' & tn2 & Hl);
      [lia | lia | lia | lia |].
    exists h2', t2', tn2.
    replace (c + Z.of_nat (S n)) with (c + 1 + Z.of_nat n) by lia.
    etrans; eauto.
Qed.

(** The program can run to its end: first thread, second thread, then
    the report. *)
Lemma peterson_can_finish :
  ∃ s, reachable N s ∧ mpc s = M_exit ∧
       counter (memory s) = 2 * (N ÷ 2).
Proof.
  pose proof N_range as [Hn1 Hn2].
  pose proof (quot2_bounds N Hn1) as [Hq1 Hq2].
  set (n := Z.to_nat (N ÷ 2)).
  assert (Hn : Z.of_nat n = N ÷ 2) by (unfold n; lia).
  destruct (peterson_loop_0 M_join1 (Some 0%nat) (Some 1%nat)
              (Thread Id1 P_entry 0 0 0 0) n 0 0 0 0
              ([(Main, A_print (banner N)); (Main, A_spawn 0 Id0);
                (Main, A_spawn 1 Id1); (Thr 0, A_load_arg Id0 0)]))
    as (ha & ta & tna & Ha); [lia | lia | lia | lia |].
  destruct (peterson_loop_1 M_join1 (Some 0%nat) (Some 1%nat)
              (Thread Id0 P_done 0 1 (N ÷ 2) ta) n 0 0 tna (0 + Z.of_nat n)
              (ha ++ [(Thr 1, A_load_arg Id1 1)]))
    as (hb & tb & tnb & Hb); [lia | lia | lia | lia |].
  eexists. split; [|split].
  - unfold reachable.
    eapply rtc_l; [exists Main; reflexivity|]. simpl.
    eapply rtc_l; [exists Main; reflexivity|]. simpl.
    eapply rtc_l; [exists Main; reflexivity|]. simpl.
    solo_step 0%nat.
    etrans; [exact Ha|].
    solo_step 1%nat.
    etrans; [exact Hb|].
    eapply rtc_l; [exists Main; reflexivity|]. simpl.
    eapply rtc_l; [exists Main; reflexivity|]. simpl.
    eapply rtc_l; [exists Main; reflexivity|]. simpl.
    eapply rtc_l; [exists Main; reflexivity|]. simpl.
    apply rtc_refl.
  - reflexivity.
  - simpl. lia.
Qed.

End PetersonTermination.

(** ** Executions of the unsynchronised program, for every [ITERATIONS] *)

Section RaceRuns.

Import Race.

Variable N : Z.
Hypothesis N_range : 0 <= N <= INT_MAX.

Ltac race_solo k :=
  eapply rtc_l;
  [ exists (Thr k); unfold sys_step, thread_step; simpl;
    rewrite ?wrap_long_small, ?wrap_int_small
      by (unfold LONG_MIN, LONG_MAX, INT_MIN, INT_MAX in *; lia);
    reflexivity
  | simpl ].

Ltac race_main :=
  eapply rtc_l; [exists Main; reflexivity | simpl].

(** One round of the loop of the first thread, the second one idle. *)
Lemma race_round_0 l h1 h2 j t b c h :
  0 <= j < N ÷ 2 → 0 <= c < INT_MAX →
  ∃ h' t',
    rtc (step N)
      (State l h1 h2 [Thread R_test j t; b] c h)
      (State l h1 h2 [Thread R_test (j + 1) t'; b] (c + 1) h').
Proof.
  intros Hj Hc. pose proof N_range as [Hn1 Hn2].
  pose proof (quot2_bounds N Hn1) as [Hq1 Hq2].
  do 2 eexists.
  eapply rtc_l.
  { exists (Thr 0). unfold sys_step, thread_step. simpl.
    rewrite (proj2 (Z.ltb_lt _ _) (proj2 Hj)). reflexivity. }
  simpl.
  do 5 race_solo 0%nat.
  apply rtc_refl.
Qed.

Lemma race_round_1 l h1 h2 j t a c h :
  0 <= j < N ÷ 2 → 0 <= c < INT_MAX →
  ∃ h' t',
    rtc (step N)
      (State l h1 h2 [a; Thread R_test j t] c h)
      (State l h1 h2 [a; Thread R_test (j + 1) t'] (c + 1) h').
Proof.
  intros Hj Hc. pose proof N_range as [Hn1 Hn2].
  pose proof (quot2_bounds N Hn1) as [Hq1 Hq2].
  do 2 eexists.
  eapply rtc_l.
  { exists (Thr 1). unfold sys_step, thread_step. simpl.
    rewrite (proj2 (Z.ltb_lt _ _) (proj2 Hj)). reflexivity. }
  simpl.
  do 5 race_solo 1%nat.
  apply rtc_refl.
Qed.

(** [k] rounds in a row. *)
Lemma race_rounds_0 l h1 h2 b (k : nat) :
  ∀ j t c h,
    0 <= j → j + Z.of_nat k <= N ÷ 2 →
    0 <= c → c + Z.of_nat k <= INT_MAX →
    ∃ h' t',
      rtc (step N)
        (State l h1 h2 [Thread R_test j t; b] c h)
        (State l h1 h2 [Thread R_test (j + Z.of_nat k) t'; b]
           (c + Z.of_nat k) h').
Proof.
  induction k as [|k IH]; intros j t c h Hj Hjk Hc Hck.
  - exists h, t. replace (j + Z.of_nat 0) with j by lia.
    replace (c + Z.of_nat 0) with c by lia. apply rtc_refl.
  - destruct (race_round_0 l h1 h2 j t b c h) as (h' & t' & Hr);
      [lia | lia |].
    destruct (IH (j + 1) t' (c + 1) h') as (h2' & t2' & Hl);
      [lia | lia | lia | lia |].
    exists h2', t2'.
    replace (j + Z.of_nat (S k)) with (j + 1 + Z.of_nat k) by lia.
    replace (c + Z.of_nat (S k)) with (c + 1 + Z.of_nat k) by lia.
    etrans; eauto.
Qed.

Lemma race_rounds_1 l h1 h2 a (k : nat) :
  ∀ j t c h,
    0 <= j → j + Z.of_nat k <= N ÷ 2 →
    0 <= c → c + Z.of_nat k <= INT_MAX →
    ∃ h' t',
      rtc (step N)
        (State l h1 h2 [a; Thread R_test j t] c h)
        (State l h1 h2 [a; Thread R_test (j + Z.of_nat k) t']
           (c + Z.of_nat k) h').
Proof.
  induction k as [|k IH]; intros j t c h Hj Hjk Hc Hck.
  - exists h, t. replace (j + Z.of_nat 0) with j by lia.
    replace (c + Z.of_nat 0) with c by lia. apply rtc_refl.
  - destruct (race_round_1 l h1 h2 j t a c h) as (h' & t' & Hr);
      [lia | lia |].
    destruct (IH (j + 1) t' (c + 1) h') as (h2' & t2' & Hl);
      [lia | lia | lia | lia |].
    exists h2', t2'.
    replace (j + Z.of_nat (S k)) with (j + 1 + Z.of_nat k) by lia.
    replace (c + Z.of_nat (S k)) with (c + 1 + Z.of_nat k) by lia.
    etrans; eauto.
Qed.

(** The test that ends the loop. *)
Lemma race_last_test_0 l h1 h2 t b c h :
  rtc (step N)
    (State l h1 h2 [Thread R_test (N ÷ 2) t; b] c h)
    (State l h1 h2 [Thread R_done (N ÷ 2) t; b] c (h ++ [(Thr 0, A_local)])).
Proof.
  eapply rtc_l; [|apply rtc_refl].
  exists (Thr 0). unfold sys_step, thread_step. simpl.
  rewrite Z.ltb_irrefl. reflexivity.
Qed.

Lemma race_last_test_1 l h1 h2 t a c h :
  rtc (step N)
    (State l h1 h2 [a; Thread R_test (N ÷ 2) t] c h)
    (State l h1 h2 [a; Thread R_done (N ÷ 2) t] c (h ++ [(Thr 1, A_local)])).
Proof.
  eapply rtc_l; [|apply rtc_refl].
  exists (Thr 1). unfold sys_step, thread_step. simpl.
  rewrite Z.ltb_irrefl. reflexivity.
Qed.

(** One thread after the other: nothing is lost. *)
Lemma race_run_sequential :
  ∃ s, reachable N s ∧ mpc s = M_exit ∧ counter s = 2 * (N ÷ 2).
Proof.
  pose proof N_range as [Hn1 Hn2].
  pose proof (quot2_bounds N Hn1) as [Hq1 Hq2].
  set (n := Z.to_nat (N ÷ 2)).
  assert (Hn : Z.of_nat n = N ÷ 2) by (unfold n; lia).
  destruct (race_rounds_0 M_join1 (Some 0%nat) (Some 1%nat)
              (Thread R_entry 0 0) n 0 0 0
              ([(Main, A_print (banner N)); (Main, A_spawn 0);
                (Main, A_spawn 1); (Thr 0, A_local)]))
    as (ha & ta & Ha); [lia | lia | lia | lia |].
  rewrite Z.add_0_l, Hn in Ha.
  destruct (race_rounds_1 M_join1 (Some 0%nat) (Some 1%nat)
              (Thread R_done (N ÷ 2) ta) n 0 0 (N ÷ 2)
              ((ha ++ [(Thr 0, A_local)]) ++ [(Thr 1, A_local)]))
    as (hb & tb & Hb); [lia | lia | lia | lia |].
  rewrite Z.add_0_l, Hn in Hb.
  eexists. split; [|split].
  - unfold reachable.
    do 3 race_main.
    race_solo 0%nat.
    etrans; [exact Ha|].
    etrans; [apply race_last_test_0|].
    race_solo 1%nat.
    etrans; [exact Hb|].
    etrans; [apply race_last_test_1|].
    do 4 race_main.
    apply rtc_refl.
  - reflexivity.
  - simpl. lia.
Qed.

(** The first thread reads 0 and is overtaken by all rounds but one of
    the second; it then stores 1, the second thread reads that 1, the
    first thread runs to its end, and the second stores 2 last. *)
Lemma race_run_lossy :
  2 <= N ÷ 2 →
  ∃ s, reachable N s ∧ mpc s = M_exit ∧ counter s = 2.
Proof.
  intros H2.
  pose proof N_range as [Hn1 Hn2].
  pose proof (quot2_bounds N Hn1) as [Hq1 Hq2].
  set (m := Z.to_nat (N ÷ 2 - 1)).
  assert (Hm : Z.of_nat m = N ÷ 2 - 1) by (unfold m; lia).
  assert (H0lt : (0 <? N ÷ 2) = true) by (apply Z.ltb_lt; lia).
  assert (Hmlt : (0 + Z.of_nat m <? N ÷ 2) = true) by (apply Z.ltb_lt; lia).
  destruct (race_rounds_1 M_join1 (Some 0%nat) (Some 1%nat)
              (Thread R_sleep 0 0) m 0 0 0
              ([(Main, A_print (banner N)); (Main, A_spawn 0);
                (Main, A_spawn 1); (Thr 0, A_local); (Thr 0, A_local);
                (Thr 0, A_load_counter 0); (Thr 1, A_local)]))
    as (h1 & t1 & H1); [lia | lia | lia | lia |].
  destruct (race_rounds_0 M_join1 (Some 0%nat) (Some 1%nat)
              (Thread R_sleep (0 + Z.of_nat m) 1) m 1 1 1
              ((((((h1 ++ [(Thr 0, A_sleep 1)]) ++ [(Thr 0, A_local)])
                    ++ [(Thr 0, A_store_counter 1)]) ++ [(Thr 0, A_local)])
                  ++ [(Thr 1, A_local)]) ++ [(Thr 1, A_load_counter 1)]))
    as (h3 & t3 & H3); [lia | lia | lia | lia |].
  replace (1 + Z.of_nat m) with (N ÷ 2) in H3 at 1 by lia.
  eexists. split; [|split].
  - unfold reachable.
    do 3 race_main.
    race_solo 0%nat.
    eapply rtc_l.
    { exists (Thr 0). unfold sys_step, thread_step. simpl.
      rewrite H0lt. reflexivity. }
    simpl.
    race_solo 0%nat.
    race_solo 1%nat.
    etrans; [exact H1|].
    do 4 race_solo 0%nat.
    eapply rtc_l.
    { exists (Thr 1). unfold sys_step, thread_step. simpl.
      rewrite Hmlt. reflexivity. }
    simpl.
    race_solo 1%nat.
    etrans; [exact H3|].
    etrans; [apply race_last_test_0|].
    do 4 race_solo 1%nat.
    eapply rtc_l.
    { exists (Thr 1). unfold sys_step, thread_step. simpl.
      rewrite (proj2 (Z.ltb_ge _ _)) by lia. reflexivity. }
    simpl.
    do 4 race_main.
    apply rtc_refl.
  - reflexivity.
  - reflexivity.
Qed.

End RaceRuns.

Lemma race_printed_exit N s :
  Race.reachable N s → Race.mpc s = Race.M_exit →
  Race.printed (Race.hist s) =
    Race.banner N ++
    [ Printf "Actual final value: %ld\n" [Race.counter s] ] ++
    Race.verdict N (Race.counter s).
Proof.
  intros Hr He.
  destruct (race_reachable_main_inv N s Hr) as (_ & Hm).
  unfold Race.printed. rewrite Hm, He. simpl.
  rewrite app_nil_r. reflexivity.
Qed.

(** * The claims *)

(** C1. In the protected program, at every instant of every execution at
    most one thread is inside the critical section: two distinct threads
    are never both past their entry wait, and in particular it never
    happens that [flag[0]] and [flag[1]] are both true while both threads
    are past their entry wait. *)
Theorem peterson_mutual_exclusion (N : Z) (s : Peterson.state) :
  Peterson.reachable N s →
  (∀ n k a b,
     n ≠ k →
     Peterson.threads s !! n = Some a →
     Peterson.threads s !! k = Some b →
     ¬ (Peterson.in_critical (Peterson.pc a) = true ∧
        Peterson.in_critical (Peterson.pc b) = true)) ∧
  ¬ (Peterson.flag (Peterson.memory s) !! 0%nat = Some true ∧
     Peterson.flag (Peterson.memory s) !! 1%nat = Some true ∧
     Peterson.in_critical
       (Peterson.pc (Peterson.slot 0 (Peterson.threads s))) = true ∧
     Peterson.in_critical
       (Peterson.pc (Peterson.slot 1 (Peterson.threads s))) = true).
Proof.
  intros Hr. pose proof (reachable_inv N s Hr) as Hi.
  pose proof (protocol_mutex _ _ _ (proj2 Hi)) as Hmx.
  split.
  - intros n k a b Hnk Ha Hb [Ca Cb].
    destruct (peterson_threads_cases N s n a Hi Ha) as [Hn ->].
    destruct (peterson_threads_cases N s k b Hi Hb) as [Hk ->].
    destruct Hn as [-> | ->], Hk as [-> | ->]; try congruence; auto.
  - intros (_ & _ & Ca & Cb). auto.
Qed.

Lemma peterson_mutual_exclusion_witness :
  Peterson.reachable ITERATIONS Peterson.state_contend ∧
  Peterson.in_critical
    (Peterson.pc (Peterson.slot 0 (Peterson.threads Peterson.state_contend)))
    = true ∧
  Peterson.in_critical
    (Peterson.pc (Peterson.slot 1 (Peterson.threads Peterson.state_contend)))
    = false.
Proof.
  assert (Hr : Peterson.reachable ITERATIONS Peterson.state_contend).
  { apply (peterson_run_reachable _ Peterson.sched_contend).
    vm_compute. reflexivity. }
  split; [exact Hr|]. split; [reflexivity|].
  destruct (peterson_mutual_exclusion ITERATIONS _ Hr) as [H _].
  specialize (H 0%nat 1%nat _ _ ltac:(lia) eq_refl eq_refl).
  apply not_true_is_false. intros Hb. apply H. split; [reflexivity|exact Hb].
Defined.

(** What the protocol invariant says about one thread that has read its
    argument. *)
Lemma peterson_thread_ids N s n th :
  Peterson.inv N s → Peterson.threads s !! n = Some th →
  Peterson.pc th ≠ Peterson.P_entry →
  (n = 0%nat ∨ n = 1%nat) ∧
  Peterson.id th = Z.of_nat n ∧ Peterson.other th = 1 - Z.of_nat n ∧
  length (Peterson.flag (Peterson.memory s)) = 2%nat.
Proof.
  intros Hi Hn Hpc.
  destruct (peterson_threads_cases N s n th Hi Hn) as [Hc Hs].
  destruct Hi as [_ (H0 & H1 & Hf & _)].
  rewrite Hf. split; [exact Hc|].
  destruct Hc as [-> | ->]; subst th.
  - destruct H0 as [_ H0]. destruct (H0 Hpc). auto.
  - destruct H1 as [_ H1]. destruct (H1 Hpc). auto.
Qed.

(** C5. [turn] always holds 0 or 1: it is 0 at program start, it is 0 or
    1 in every state of every execution, and every store to it (the step
    at [turn = other]) writes [other], which is 0 or 1. *)
Theorem peterson_turn_valid (N : Z) (s : Peterson.state) :
  Peterson.reachable N s →
  Peterson.turn (Peterson.memory Peterson.init) = 0 ∧
  (Peterson.turn (Peterson.memory s) = 0 ∨
   Peterson.turn (Peterson.memory s) = 1) ∧
  (∀ n th,
     Peterson.threads s !! n = Some th →
     Peterson.pc th = Peterson.P_set_turn →
     ∃ s', Peterson.sys_step N (Peterson.Thr n) s = Some s' ∧
           Peterson.hist s' =
             Peterson.hist s ++
               [(Peterson.Thr n, Peterson.A_store_turn (Peterson.other th))] ∧
           Peterson.turn (Peterson.memory s') = Peterson.other th ∧
           (Peterson.other th = 0 ∨ Peterson.other th = 1)).
Proof.
  intros Hr. pose proof (reachable_inv N s Hr) as Hi.
  split; [reflexivity|]. split; [apply Hi|].
  intros n th Hn Hpc.
  destruct (peterson_thread_ids N s n th Hi Hn) as (Hc & _ & Ho & _);
    [congruence|].
  unfold Peterson.sys_step, Peterson.thread_step. rewrite Hn. simpl.
  rewrite Hpc. simpl. eexists. split; [reflexivity|]. simpl.
  repeat split. destruct Hc as [-> | ->]; simpl in Ho; lia.
Qed.

Lemma peterson_turn_valid_witness :
  Peterson.reachable ITERATIONS Peterson.state_contend ∧
  (Peterson.turn (Peterson.memory Peterson.state_contend) = 0 ∨
   Peterson.turn (Peterson.memory Peterson.state_contend) = 1).
Proof.
  assert (Hr : Peterson.reachable ITERATIONS Peterson.state_contend).
  { apply (peterson_run_reachable _ Peterson.sched_contend).
    vm_compute. reflexivity. }
  split; [exact Hr|].
  exact (proj1 (proj2 (peterson_turn_valid ITERATIONS _ Hr))).
Defined.

(** C4. Whenever a thread leaves the entry wait (the step that takes it
    from its [while] loop to the critical section), the state it leaves in
    satisfies [flag[other] == false] or [turn == id], where
    [other = 1 - id]. *)
Theorem peterson_enter_postcondition (N : Z) (s s' : Peterson.state)
    (n : nat) (th th' : Peterson.thread) :
  Peterson.reachable N s →
  Peterson.sys_step N (Peterson.Thr n) s = Some s' →
  Peterson.threads s !! n = Some th →
  Peterson.threads s' !! n = Some th' →
  Peterson.in_wait (Peterson.pc th) = true →
  Peterson.pc th' = Peterson.P_read →
  Peterson.id th' = Peterson.id th ∧
  Peterson.other th' = 1 - Peterson.id th' ∧
  (Peterson.flag_load (Peterson.flag (Peterson.memory s'))
     (Peterson.other th') = Some false ∨
   Peterson.turn (Peterson.memory s') = Peterson.id th').
Proof.
  intros Hr Hs Hn Hn' Hw Hpc.
  pose proof (reachable_inv N s Hr) as Hi.
  destruct (peterson_thread_ids N s n th Hi Hn) as (Hc & Hid & Ho & Hlen).
  { intros E. rewrite E in Hw. discriminate. }
  destruct Hi as [_ (_ & _ & _ & Ht & _)].
  unfold Peterson.sys_step in Hs. rewrite Hn in Hs. simpl in Hs.
  destruct (Peterson.thread_step N (Peterson.memory s) th)
    as [[[ac m1] th1]|] eqn:Et; simpl in Hs; [|discriminate].
  injection Hs as <-. simpl in *.
  rewrite list_lookup_insert_eq in Hn' by (eapply lookup_lt_Some; eauto).
  injection Hn' as ->.
  unfold Peterson.thread_step in Et.
  destruct th as [p l k o j t]. simpl in *.
  destruct l; try discriminate; simpl in Et.
  - destruct (Peterson.flag_load (Peterson.flag (Peterson.memory s)) o)
      as [[|]|] eqn:Ef; simpl in Et; try discriminate;
      injection Et as <- <- <-; simpl in *; try discriminate.
    repeat split; auto; lia.
  - injection Et as <- <- <-. simpl in *.
    destruct (Z.eqb_spec (Peterson.turn (Peterson.memory s)) o);
      simpl in *; try discriminate.
    repeat split; auto; try lia; right; lia.
Qed.

Lemma peterson_enter_postcondition_witness :
  Peterson.reachable ITERATIONS Peterson.state_waiting ∧
  Peterson.sys_step ITERATIONS (Peterson.Thr 0) Peterson.state_waiting
    = Some Peterson.state_entered ∧
  (Peterson.flag_load (Peterson.flag (Peterson.memory Peterson.state_entered))
     1 = Some false ∨
   Peterson.turn (Peterson.memory Peterson.state_entered) = 0).
Proof.
  assert (Hr : Peterson.reachable ITERATIONS Peterson.state_waiting).
  { apply (peterson_run_reachable _ Peterson.sched_waiting).
    vm_compute. reflexivity. }
  assert (Hs : Peterson.sys_step ITERATIONS (Peterson.Thr 0)
                 Peterson.state_waiting = Some Peterson.state_entered)
    by (vm_compute; reflexivity).
  split; [exact Hr|]. split; [exact Hs|].
  exact (proj2 (proj2
    (peterson_enter_postcondition ITERATIONS _ _ 0%nat
       (Peterson.Thread Peterson.Id0 Peterson.P_wait_turn 0 1 0 0)
       (Peterson.Thread Peterson.Id0 Peterson.P_read 0 1 0 0)
       Hr Hs eq_refl eq_refl eq_refl eq_refl))).
Defined.

(** C6. The exit step stores [flag[id] = false] and changes nothing else:
    [flag[other]], [turn], [counter], the locals of [main], the other
    threads and [main] itself are as before. *)
Theorem peterson_exit_frame (N : Z) (s : Peterson.state) (n : nat)
    (th : Peterson.thread) :
  Peterson.reachable N s →
  Peterson.threads s !! n = Some th →
  Peterson.pc th = Peterson.P_clear →
  ∃ s',
    Peterson.sys_step N (Peterson.Thr n) s = Some s' ∧
    Peterson.hist s' =
      Peterson.hist s ++
        [(Peterson.Thr n, Peterson.A_store_flag (Peterson.id th) false)] ∧
    Peterson.spec_exit (Peterson.id th) (Peterson.memory s)
      = Some (Peterson.memory s') ∧
    Peterson.flag_load (Peterson.flag (Peterson.memory s')) (Peterson.id th)
      = Some false ∧
    Peterson.flag_load (Peterson.flag (Peterson.memory s')) (Peterson.other th)
      = Peterson.flag_load (Peterson.flag (Peterson.memory s))
          (Peterson.other th) ∧
    Peterson.turn (Peterson.memory s') = Peterson.turn (Peterson.memory s) ∧
    Peterson.counter (Peterson.memory s')
      = Peterson.counter (Peterson.memory s) ∧
    Peterson.id0 (Peterson.memory s') = Peterson.id0 (Peterson.memory s) ∧
    Peterson.id1 (Peterson.memory s') = Peterson.id1 (Peterson.memory s) ∧
    Peterson.mpc s' = Peterson.mpc s ∧
    (∀ k, k ≠ n → Peterson.threads s' !! k = Peterson.threads s !! k).
Proof.
  intros Hr Hn Hpc.
  pose proof (reachable_inv N s Hr) as Hi.
  destruct (peterson_thread_ids N s n th Hi Hn) as (Hc & Hid & Ho & Hlen);
    [congruence|].
  destruct Hi as [_ (_ & _ & Hf & _)].
  unfold Peterson.sys_step, Peterson.thread_step, Peterson.spec_exit.
  rewrite Hn. simpl. rewrite Hpc, Hid, Ho, Hf. simpl.
  destruct Hc as [-> | ->]; simpl.
  all: eexists; split; [reflexivity|]; simpl.
  all: repeat split; auto.
  all: intros k Hk; apply list_lookup_insert_ne; auto.
Qed.

Lemma peterson_exit_frame_witness :
  Peterson.reachable ITERATIONS Peterson.state_exit ∧
  ∃ s',
    Peterson.sys_step ITERATIONS (Peterson.Thr 0) Peterson.state_exit
      = Some s' ∧
    Peterson.flag (Peterson.memory Peterson.state_exit) = [true; true] ∧
    Peterson.flag (Peterson.memory s') = [false; true] ∧
    Peterson.turn (Peterson.memory s') = 0 ∧
    Peterson.counter (Peterson.memory s') = 1.
Proof.
  assert (Hr : Peterson.reachable ITERATIONS Peterson.state_exit).
  { apply (peterson_run_reachable _ Peterson.sched_exit).
    vm_compute. reflexivity. }
  split; [exact Hr|].
  destruct (peterson_exit_frame ITERATIONS _ 0%nat
              (Peterson.Thread Peterson.Id0 Peterson.P_clear 0 1 0 1)
              Hr eq_refl eq_refl)
    as (s' & Hs & _ & Hx & _ & _ & Ht & Hc & _).
  exists s'. split; [exact Hs|]. split; [reflexivity|].
  split; [|split; [exact Ht | exact Hc]].
  change (Some (Peterson.Mem 0 1 [false; true] 0 1)
          = Some (Peterson.memory s')) in Hx.
  injection Hx as Hx. rewrite <- Hx. reflexivity.
Defined.

(** C3. The entry section of a thread with [other = 1 - id] does, in this
    order: the store [flag[id] = true] (and nothing else), then the store
    [turn = other] (and nothing else), then a loop that only loads: it
    loads [flag[other]] and, when that is true, [turn], goes round again
    when [flag[other]] was true and [turn == other], and goes on to the
    critical section otherwise.  Every one of these steps can always be
    taken: the wait is a spin, never a blocked thread. *)
Theorem peterson_enter_steps (N : Z) (s : Peterson.state) (n : nat)
    (th : Peterson.thread) :
  Peterson.reachable N s →
  Peterson.threads s !! n = Some th →
  Peterson.in_entry (Peterson.pc th) = true →
  Peterson.other th = Peterson.spec_other (Peterson.id th) ∧
  ∃ ac m' th',
    Peterson.thread_step N (Peterson.memory s) th = Some (ac, m', th') ∧
    Peterson.sys_step N (Peterson.Thr n) s =
      Some (Peterson.State (Peterson.mpc s) (Peterson.t1 s) (Peterson.t2 s)
              (<[n := th']> (Peterson.threads s)) m'
              (Peterson.hist s ++ [(Peterson.Thr n, ac)])) ∧
    th' = Peterson.goto th (Peterson.pc th') ∧
    match Peterson.pc th with
    | Peterson.P_set_flag =>
        ac = Peterson.A_store_flag (Peterson.id th) true ∧
        Peterson.spec_store_flag (Peterson.id th) (Peterson.memory s)
          = Some m' ∧
        Peterson.pc th' = Peterson.P_set_turn
    | Peterson.P_set_turn =>
        ac = Peterson.A_store_turn (Peterson.spec_other (Peterson.id th)) ∧
        m' = Peterson.spec_store_turn (Peterson.id th) (Peterson.memory s) ∧
        Peterson.pc th' = Peterson.P_wait_flag
    | Peterson.P_wait_flag =>
        m' = Peterson.memory s ∧
        ∃ b w th2,
          Peterson.flag_load (Peterson.flag (Peterson.memory s))
            (Peterson.spec_other (Peterson.id th)) = Some b ∧
          ac = Peterson.A_load_flag (Peterson.spec_other (Peterson.id th)) b ∧
          Peterson.pc th' =
            (if b then Peterson.P_wait_turn else Peterson.P_read) ∧
          Peterson.spec_must_wait (Peterson.id th) (Peterson.memory s)
            = Some w ∧
          Peterson.wait_round N (Peterson.memory s) th = Some th2 ∧
          Peterson.pc th2 =
            (if w then Peterson.P_wait_flag else Peterson.P_read)
    | Peterson.P_wait_turn =>
        m' = Peterson.memory s ∧
        ac = Peterson.A_load_turn (Peterson.turn (Peterson.memory s)) ∧
        Peterson.pc th' =
          (if Peterson.turn (Peterson.memory s)
              =? Peterson.spec_other (Peterson.id th)
           then Peterson.P_wait_flag else Peterson.P_read)
    | _ => False
    end.
Proof.
  intros Hr Hn He.
  pose proof (reachable_inv N s Hr) as Hi.
  destruct (peterson_thread_ids N s n th Hi Hn) as (Hc & Hid & Ho & Hlen).
  { intros E. rewrite E in He. discriminate. }
  destruct Hi as [_ (_ & _ & Hf & _)].
  split; [unfold Peterson.spec_other; lia|].
  unfold Peterson.sys_step. rewrite Hn. simpl.
  unfold Peterson.wait_round, Peterson.thread_step,
    Peterson.spec_store_flag, Peterson.spec_store_turn,
    Peterson.spec_must_wait, Peterson.spec_other.
  destruct th as [p l k o j t]. simpl in *. subst k o. rewrite Hf.
  destruct l; try discriminate; destruct Hc as [-> | ->]; simpl.
  all: try (do 3 eexists; repeat split; reflexivity).
  all: match goal with
       | |- context [if ?b then Peterson.P_wait_turn else Peterson.P_read] =>
           destruct b eqn:Eb
       end; simpl.
  all: try (do 3 eexists; split; [reflexivity|]; split; [reflexivity|];
            split; [reflexivity|]; split; [reflexivity|];
            do 3 eexists; repeat split; reflexivity).
  all: destruct (Peterson.turn (Peterson.memory s) =? _) eqn:Et.
  all: do 3 eexists; split; [reflexivity|]; split; [reflexivity|];
         split; [reflexivity|]; split; [reflexivity|];
         do 3 eexists; repeat split; simpl; rewrite ?Et; reflexivity.
Qed.

Lemma peterson_enter_steps_witness :
  Peterson.reachable ITERATIONS Peterson.state_waiting ∧
  Peterson.threads Peterson.state_waiting !! 1%nat
    = Some (Peterson.Thread Peterson.Id1 Peterson.P_wait_flag 1 0 0 0) ∧
  ∃ th2,
    Peterson.spec_must_wait 1 (Peterson.memory Peterson.state_waiting)
      = Some true ∧
    Peterson.wait_round ITERATIONS (Peterson.memory Peterson.state_waiting)
      (Peterson.Thread Peterson.Id1 Peterson.P_wait_flag 1 0 0 0) = Some th2 ∧
    Peterson.pc th2 = Peterson.P_wait_flag.
Proof.
  assert (Hr : Peterson.reachable ITERATIONS Peterson.state_waiting).
  { apply (peterson_run_reachable _ Peterson.sched_waiting).
    vm_compute. reflexivity. }
  split; [exact Hr|]. split; [reflexivity|].
  destruct (peterson_enter_steps ITERATIONS _ 1%nat
              (Peterson.Thread Peterson.Id1 Peterson.P_wait_flag 1 0 0 0)
              Hr eq_refl eq_refl)
    as (_ & ac & m' & th' & _ & _ & _ & _ & b & w & th2 & _ & _ & _ &
        Hw & Hround & Hpc).
  exists th2.
  change (Some true = Some w) in Hw. injection Hw as <-.
  split; [reflexivity|]. split; [exact Hround | exact Hpc].
Defined.



(** The loop counters of two threads that have both returned. *)
Lemma peterson_joined_completed N s :
  Peterson.inv N s → Peterson.counter_inv N s →
  Peterson.after_joins (Peterson.mpc s) = true →
  Peterson.completed (Peterson.slot 0 (Peterson.threads s)) = N ÷ 2 ∧
  Peterson.completed (Peterson.slot 1 (Peterson.threads s)) = N ÷ 2.
Proof.
  intros [(Hsh & _) _] (La & Lb & _) Hj.
  unfold Peterson.shape in Hsh.
  destruct (Peterson.mpc s); try discriminate;
    destruct Hsh as (_ & _ & _ & Hd0 & Hd1).
  all: destruct La as (_ & _ & La & _), Lb as (_ & _ & Lb & _).
  all: unfold Peterson.completed; rewrite Hd0, Hd1; simpl.
  all: rewrite (La Hd0), (Lb Hd1); lia.
Qed.

(** C2. In every execution of the protected program with
    [ITERATIONS = N], N even (and a value of type [int] that is not
    negative), once [main] is past the two joins [counter] is exactly N,
    each thread having done N/2 increments; with the configured
    N = 100000 that is 50000 increments each and a final value of
    100000.  Such executions exist: the program can run to its end. *)
Theorem peterson_final_counter (N : Z) (s : Peterson.state) :
  0 <= N <= INT_MAX →
  Z.even N = true →
  Peterson.reachable N s →
  Peterson.after_joins (Peterson.mpc s) = true →
  Peterson.counter (Peterson.memory s) = N ∧
  Peterson.count_stores
    (Peterson.actions_of (Peterson.Thr 0) (Peterson.hist s)) = N ÷ 2 ∧
  Peterson.count_stores
    (Peterson.actions_of (Peterson.Thr 1) (Peterson.hist s)) = N ÷ 2 ∧
  (N = ITERATIONS →
   N ÷ 2 = 50000 ∧ Peterson.counter (Peterson.memory s) = 100000) ∧
  (∃ s', Peterson.reachable N s' ∧ Peterson.mpc s' = Peterson.M_exit).
Proof.
  intros Hn He Hr Hj.
  pose proof (reachable_inv N s Hr) as Hi.
  pose proof (reachable_counter_inv N Hn s Hr) as Hc.
  destruct (peterson_joined_completed N s Hi Hc Hj) as [C0 C1].
  destruct Hc as (_ & _ & Hcnt & _ & _ & H0 & H1).
  pose proof (quot2_even N ltac:(lia) He) as Hq.
  assert (Peterson.counter (Peterson.memory s) = N) as Hfin by lia.
  split; [exact Hfin|]. split; [lia|]. split; [lia|]. split.
  - intros ->. split; [reflexivity | exact Hfin].
  - destruct (peterson_can_finish N Hn) as (s' & Hr' & He' & _). eauto.
Qed.

Lemma peterson_final_counter_witness :
  0 <= 2 <= INT_MAX ∧ Z.even 2 = true ∧
  Peterson.reachable 2 Peterson.state_whole ∧
  Peterson.after_joins (Peterson.mpc Peterson.state_whole) = true ∧
  Peterson.counter (Peterson.memory Peterson.state_whole) = 2.
Proof.
  assert (Hn : 0 <= 2 <= INT_MAX) by (unfold INT_MAX; lia).
  assert (Hr : Peterson.reachable 2 Peterson.state_whole).
  { apply (peterson_run_reachable _ Peterson.sched_whole).
    vm_compute. reflexivity. }
  split; [exact Hn|]. split; [reflexivity|]. split; [exact Hr|].
  split; [reflexivity|].
  exact (proj1 (peterson_final_counter 2 _ Hn eq_refl Hr eq_refl)).
Defined.

(** The counter of the baseline stays between 0 and [N]. *)
Lemma race_counter_bounded_aux N s :
  0 <= N <= INT_MAX → Race.reachable N s → 0 <= Race.counter s <= N.
Proof.
  intros Hn Hr.
  pose proof (race_reachable_counter_inv N Hn s Hr)
    as (La & Lb & Hc & _).
  pose proof (race_completed_le N _ La).
  pose proof (race_completed_le N _ Lb).
  pose proof (quot2_bounds N ltac:(lia)) as [_ Hq].
  lia.
Qed.

(** C7. In every execution of the unsynchronised program with
    [ITERATIONS = N] (a value of type [int] that is not negative),
    [counter] never exceeds N: in every state of the execution, and so in
    the value that [main] prints after the two joins. *)
Theorem race_counter_bounded (N : Z) (s : Race.state) :
  0 <= N <= INT_MAX →
  Race.reachable N s →
  0 <= Race.counter s <= N ∧
  (∀ v, In (Printf "Actual final value: %ld\n" [v])
          (Race.printed (Race.hist s)) →
        v = Race.counter s ∧ v <= N ∧
        Race.after_joins (Race.mpc s) = true).
Proof.
  intros Hn Hr.
  pose proof (race_reachable_main_inv N s Hr) as (_ & Hm).
  pose proof (race_counter_bounded_aux N s Hn Hr) as Hb.
  split; [exact Hb|].
  intros v Hv. unfold Race.printed in Hv. rewrite Hm in Hv.
  destruct (Race.mpc s); simpl in Hv.
  all: repeat (destruct Hv as [Hv | Hv]; [try discriminate|]);
    try contradiction.
  all: try (injection Hv as <-; repeat split; auto; lia).
  all: unfold Race.verdict in Hv; destruct (_ <? _); simpl in Hv.
  all: repeat (destruct Hv as [Hv | Hv]; [try discriminate|]);
    try contradiction.
Qed.

Lemma race_counter_bounded_witness :
  0 <= 2 <= INT_MAX ∧
  Race.reachable 2 Race.state_lost ∧
  Race.counter Race.state_lost = 1 ∧
  0 <= Race.counter Race.state_lost <= 2.
Proof.
  assert (Hn : 0 <= 2 <= INT_MAX) by (unfold INT_MAX; lia).
  assert (Hr : Race.reachable 2 Race.state_lost).
  { apply (race_run_reachable _ Race.sched_lost). vm_compute. reflexivity. }
  split; [exact Hn|]. split; [exact Hr|]. split; [reflexivity|].
  exact (proj1 (race_counter_bounded 2 _ Hn Hr)).
Defined.

Lemma race_joined_completed N s :
  Race.main_inv N s → Race.counter_inv N s →
  Race.after_joins (Race.mpc s) = true →
  Race.completed (Race.slot 0 (Race.threads s)) = N ÷ 2 ∧
  Race.completed (Race.slot 1 (Race.threads s)) = N ÷ 2.
Proof.
  intros (Hsh & _) (La & Lb & _) Hj.
  unfold Race.shape in Hsh.
  destruct (Race.mpc s); try discriminate;
    destruct Hsh as (_ & _ & _ & Hd0 & Hd1).
  all: destruct La as (_ & _ & La & _), Lb as (_ & _ & Lb & _).
  all: unfold Race.completed; rewrite Hd0, Hd1; simpl.
  all: rewrite (La Hd0), (Lb Hd1); lia.
Qed.



(** C8. The console verdicts.  The protected program prints its success
    lines exactly when the final counter equals [ITERATIONS], and the
    "Unexpected result" line with the value otherwise.  The baseline
    prints the number of lost updates, [ITERATIONS - counter], when the
    final counter is below [ITERATIONS], and the "No race detected" line
    when it equals [ITERATIONS]; no execution of the baseline ends with a
    final counter above [ITERATIONS].  What a finished run has printed is
    the banner, the final value and this verdict, and finished runs
    exist: the protected program and the baseline can each run to the end
    of [main] with a final counter of 2 * ([ITERATIONS]/2), and the
    baseline can also end with 2 when [ITERATIONS] is at least 4. *)
Theorem console_verdicts (N : Z) :
  0 <= N <= INT_MAX →
  (∀ actual,
     (Peterson.verdict N actual =
        [ Printf "MUTUAL EXCLUSION GUARANTEED - No lost updates\n" [];
          Printf "Peterson's algorithm prevents race conditions\n" [] ]
      ↔ actual = N) ∧
     (actual ≠ N →
      Peterson.verdict N actual =
        [ Printf "Unexpected result: %ld\n" [actual] ])) ∧
  (∀ actual,
     0 <= actual →
     (actual < N →
      Race.verdict N actual =
        [ Printf " RACE CONDITION DETECTED! Lost %ld updates\n" [N - actual];
          Printf "Reason: Both threads read same value before either writes\n"
            [] ]) ∧
     (actual = N →
      Race.verdict N actual =
        [ Printf "No race detected this run (non-deterministic - try again)\n"
            [] ])) ∧
  (∀ s,
     Peterson.reachable N s → Peterson.mpc s = Peterson.M_exit →
     Peterson.printed (Peterson.hist s) =
       Peterson.banner N ++
       [ Printf "Actual final value: %ld\n"
           [Peterson.counter (Peterson.memory s)] ] ++
       Peterson.verdict N (Peterson.counter (Peterson.memory s))) ∧
  (∀ s,
     Race.reachable N s → Race.mpc s = Race.M_exit →
     0 <= Race.counter s ∧
     (Race.counter s < N ∨ Race.counter s = N) ∧
     Race.printed (Race.hist s) =
       Race.banner N ++
       [ Printf "Actual final value: %ld\n" [Race.counter s] ] ++
       Race.verdict N (Race.counter s)) ∧
  (∃ s,
     Peterson.reachable N s ∧ Peterson.mpc s = Peterson.M_exit ∧
     Peterson.counter (Peterson.memory s) = 2 * (N ÷ 2) ∧
     Peterson.printed (Peterson.hist s) =
       Peterson.banner N ++
       [ Printf "Actual final value: %ld\n" [2 * (N ÷ 2)] ] ++
       Peterson.verdict N (2 * (N ÷ 2))) ∧
  (∃ s,
     Race.reachable N s ∧ Race.mpc s = Race.M_exit ∧
     Race.counter s = 2 * (N ÷ 2) ∧
     Race.printed (Race.hist s) =
       Race.banner N ++
       [ Printf "Actual final value: %ld\n" [2 * (N ÷ 2)] ] ++
       Race.verdict N (2 * (N ÷ 2))) ∧
  (4 <= N →
   ∃ s,
     Race.reachable N s ∧ Race.mpc s = Race.M_exit ∧
     Race.counter s = 2 ∧
     Race.printed (Race.hist s) =
       Race.banner N ++
       [ Printf "Actual final value: %ld\n" [2] ] ++
       Race.verdict N 2).
Proof.
  intros Hn.
  assert (Hpp : ∀ s,
     Peterson.reachable N s → Peterson.mpc s = Peterson.M_exit →
     Peterson.printed (Peterson.hist s) =
       Peterson.banner N ++
       [ Printf "Actual final value: %ld\n"
           [Peterson.counter (Peterson.memory s)] ] ++
       Peterson.verdict N (Peterson.counter (Peterson.memory s))).
  { intros s Hr He.
    destruct (reachable_inv N s Hr) as [(_ & _ & Hm) _].
    unfold Peterson.printed. rewrite Hm, He. simpl.
    rewrite app_nil_r. reflexivity. }
  split; [|split; [|split; [|split; [|split; [|split]]]]].
  5: { destruct (peterson_can_finish N Hn) as (s & Hr & He & Hc).
       exists s. repeat split; auto.
       rewrite (Hpp s Hr He), Hc. reflexivity. }
  5: { destruct (race_run_sequential N Hn) as (s & Hr & He & Hc).
       exists s. repeat split; auto.
       rewrite (race_printed_exit N s Hr He), Hc. reflexivity. }
  5: { intros H4.
       assert (H2 : 2 <= N ÷ 2) by (apply Z.quot_le_lower_bound; lia).
       destruct (race_run_lossy N Hn H2) as (s & Hr & He & Hc).
       exists s. repeat split; auto.
       rewrite (race_printed_exit N s Hr He), Hc. reflexivity. }
  - intros actual. unfold Peterson.verdict.
    destruct (Z.eqb_spec actual N) as [E | E]; split.
    + tauto.
    + intros H. contradiction.
    + split; [discriminate | contradiction].
    + reflexivity.
  - intros actual Ha. unfold Race.verdict. split.
    + intros Hlt. destruct (Z.ltb_spec actual N); [|lia].
      rewrite wrap_long_small
        by (unfold LONG_MIN, LONG_MAX, INT_MAX in *; lia).
      reflexivity.
    + intros ->. rewrite Z.ltb_irrefl. reflexivity.
  - exact Hpp.
  - intros s Hr He.
    destruct (race_reachable_main_inv N s Hr) as (_ & Hm).
    pose proof (race_counter_bounded_aux N s Hn Hr) as Hb.
    split; [lia|]. split; [lia|].
    unfold Race.printed. rewrite Hm, He. simpl.
    rewrite app_nil_r. reflexivity.
Qed.

Lemma console_verdicts_witness :
  0 <= 2 <= INT_MAX ∧
  Peterson.reachable 2 Peterson.state_whole ∧
  Peterson.mpc Peterson.state_whole = Peterson.M_exit ∧
  Peterson.printed (Peterson.hist Peterson.state_whole) =
    Peterson.banner 2 ++
    [ Printf "Actual final value: %ld\n" [2] ] ++
    [ Printf "MUTUAL EXCLUSION GUARANTEED - No lost updates\n" [];
      Printf "Peterson's algorithm prevents race conditions\n" [] ] ∧
  Race.reachable 2 Race.state_lost ∧
  Race.mpc Race.state_lost = Race.M_exit ∧
  Race.printed (Race.hist Race.state_lost) =
    Race.banner 2 ++
    [ Printf "Actual final value: %ld\n" [1] ] ++
    [ Printf " RACE CONDITION DETECTED! Lost %ld updates\n" [2 - 1];
      Printf "Reason: Both threads read same value before either writes\n"
        [] ].
Proof.
  assert (Hn : 0 <= 2 <= INT_MAX) by (unfold INT_MAX; lia).
  assert (Hq : Peterson.reachable 2 Peterson.state_whole).
  { apply (peterson_run_reachable _ Peterson.sched_whole).
    vm_compute. reflexivity. }
  assert (Hr : Race.reachable 2 Race.state_lost).
  { apply (race_run_reachable _ Race.sched_lost). vm_compute. reflexivity. }
  destruct (console_verdicts 2 Hn) as (Hs & Hv & Hpp & Hp & _).
  split; [exact Hn|]. split; [exact Hq|]. split; [reflexivity|].
  split.
  { rewrite (Hpp Peterson.state_whole Hq eq_refl).
    change (Peterson.counter (Peterson.memory Peterson.state_whole)) with 2.
    rewrite (proj2 (proj1 (Hs 2)) eq_refl). reflexivity. }
  split; [exact Hr|]. split; [reflexivity|].
  destruct (Hp Race.state_lost Hr eq_refl) as (_ & _ & Hout).
  rewrite Hout.
  destruct (Hv 1 ltac:(lia)) as [Hlost _].
  change (Race.counter Race.state_lost) with 1.
  rewrite (Hlost ltac:(lia)). reflexivity.
Defined.


(** * Further properties of the two programs *)

(** ** The protected program: the counter at every instant *)

Lemma peterson_stored_values_app h1 h2 :
  Peterson.stored_values (h1 ++ h2) =
  Peterson.stored_values h1 ++ Peterson.stored_values h2.
Proof.
  induction h1 as [|[a ac] h1 IH]; simpl; [reflexivity|].
  destruct ac; rewrite ?IH; reflexivity.
Qed.

(** What a step of a thread does to [counter]. *)
Lemma peterson_thread_step_counter N m th ac m' th' :
  Peterson.thread_step N m th = Some (ac, m', th') →
  (Peterson.pc th = Peterson.P_write ∧
   ac = Peterson.A_store_counter (Peterson.temp th) ∧
   Peterson.counter m' = Peterson.temp th) ∨
  (Peterson.pc th ≠ Peterson.P_write ∧
   Peterson.stored_values [(Peterson.Main, ac)] = [] ∧
   Peterson.counter m' = Peterson.counter m).
Proof.
  unfold Peterson.thread_step. intros H.
  destruct (Peterson.pc th) eqn:E; simpl in H.
  all: try match type of H with
         | context [Peterson.flag_store ?f ?x ?v] =>
             destruct (Peterson.flag_store f x v); simpl in H; [|discriminate]
         | context [Peterson.flag_load ?f ?x] =>
             destruct (Peterson.flag_load f x); simpl in H; [|discriminate]
         end.
  all: try discriminate.
  all: injection H as <- <- <-.
  all: first [ left; repeat split; reflexivity
             | right; repeat split; try discriminate; reflexivity ].
Qed.

Lemma peterson_main_step_counter N s s' :
  Peterson.main_step N s = Some s' →
  Peterson.counter (Peterson.memory s') = Peterson.counter (Peterson.memory s) ∧
  Peterson.stored_values (Peterson.hist s') =
    Peterson.stored_values (Peterson.hist s).
Proof.
  unfold Peterson.main_step. intros H.
  destruct (Peterson.mpc s); simpl in H; repeat case_match;
    try discriminate; injection H as <-; simpl;
    rewrite peterson_stored_values_app; simpl; rewrite app_nil_r; auto.
Qed.

(** How one step of the program changes [counter] and the stored
    values: not at all, or the step is [counter = temp] of a thread whose
    [temp] is the old counter plus one. *)
Lemma peterson_step_counter N s s' :
  0 <= N <= INT_MAX →
  Peterson.reachable N s → Peterson.step N s s' →
  (Peterson.counter (Peterson.memory s') = Peterson.counter (Peterson.memory s) ∧
   Peterson.stored_values (Peterson.hist s') =
     Peterson.stored_values (Peterson.hist s)) ∨
  (Peterson.counter (Peterson.memory s') =
     Peterson.counter (Peterson.memory s) + 1 ∧
   Peterson.stored_values (Peterson.hist s') =
     Peterson.stored_values (Peterson.hist s) ++
       [Peterson.counter (Peterson.memory s) + 1]).
Proof.
  intros Hn Hr [[|n] Hs]; simpl in Hs.
  - left. apply (peterson_main_step_counter N), Hs.
  - pose proof (reachable_inv N s Hr) as Hi.
    pose proof (reachable_counter_inv N Hn s Hr)
      as (_ & _ & _ & Ta & Tb & _).
    destruct (Peterson.threads s !! n) as [th|] eqn:En; simpl in Hs;
      [|discriminate].
    destruct (Peterson.thread_step N (Peterson.memory s) th)
      as [[[ac m'] th']|] eqn:Et; simpl in Hs; [|discriminate].
    injection Hs as <-. simpl.
    rewrite peterson_stored_values_app.
    destruct (peterson_thread_step_counter _ _ _ _ _ _ Et)
      as [(Hpc & -> & Hc) | (Hpc & Hnil & Hc)].
    + right. simpl.
      destruct (peterson_threads_cases N s n th Hi En) as [[-> | ->] ->].
      * rewrite Hc, (proj2 Ta Hpc). auto.
      * rewrite Hc, (proj2 Tb Hpc). auto.
    + left. split; [exact Hc|].
      simpl in *. destruct ac; try discriminate; simpl; apply app_nil_r.
Qed.

Lemma peterson_stored_values_seq N s :
  0 <= N <= INT_MAX →
  Peterson.reachable N s →
  Peterson.stored_values (Peterson.hist s) =
    seqZ 1 (Peterson.counter (Peterson.memory s)).
Proof.
  intros Hn. revert s. apply rtc_ind_r; [reflexivity|].
  intros y z Hy Hyz IH.
  pose proof (reachable_counter_inv N Hn y Hy) as (La & Lb & Hc & _).
  pose proof (completed_le N _ La). pose proof (completed_le N _ Lb).
  destruct (peterson_step_counter N y z Hn Hy Hyz) as [[-> ->] | [-> ->]].
  - exact IH.
  - rewrite IH, seqZ_app by lia.
    f_equal. unfold seqZ. simpl. f_equal. lia.
Qed.

(** X1. In the protected program no update is ever lost, at any instant:
    in every state of every execution [counter] is the number of times
    [counter = temp] has been executed so far by the two threads
    together, the values stored so far are 1, 2, ..., [counter] in this
    order, and [counter] lies between 0 and [ITERATIONS]. *)
Theorem peterson_counter_tracks_stores (N : Z) (s : Peterson.state) :
  0 <= N <= INT_MAX →
  Peterson.reachable N s →
  Peterson.counter (Peterson.memory s) =
    Peterson.count_stores
      (Peterson.actions_of (Peterson.Thr 0) (Peterson.hist s)) +
    Peterson.count_stores
      (Peterson.actions_of (Peterson.Thr 1) (Peterson.hist s)) ∧
  Peterson.stored_values (Peterson.hist s) =
    seqZ 1 (Peterson.counter (Peterson.memory s)) ∧
  0 <= Peterson.counter (Peterson.memory s) <= N.
Proof.
  intros Hn Hr.
  pose proof (reachable_counter_inv N Hn s Hr)
    as (La & Lb & Hc & _ & _ & H0 & H1).
  pose proof (completed_le N _ La). pose proof (completed_le N _ Lb).
  pose proof (quot2_bounds N ltac:(lia)) as [_ Hq].
  split; [lia|]. split; [|lia].
  apply (peterson_stored_values_seq N); assumption.
Qed.

Lemma peterson_counter_tracks_stores_witness :
  0 <= 2 <= INT_MAX ∧
  Peterson.reachable 2 Peterson.state_whole ∧
  Peterson.stored_values (Peterson.hist Peterson.state_whole) = [1; 2].
Proof.
  assert (Hn : 0 <= 2 <= INT_MAX) by (unfold INT_MAX; lia).
  assert (Hr : Peterson.reachable 2 Peterson.state_whole).
  { apply (peterson_run_reachable _ Peterson.sched_whole).
    vm_compute. reflexivity. }
  split; [exact Hn|]. split; [exact Hr|].
  exact (proj1 (proj2 (peterson_counter_tracks_stores 2 _ Hn Hr))).
Defined.

(** The counter along an execution that goes on from a reachable state. *)
Lemma peterson_counter_le_steps N s s' :
  0 <= N <= INT_MAX →
  Peterson.reachable N s → rtc (Peterson.step N) s s' →
  Peterson.counter (Peterson.memory s) <= Peterson.counter (Peterson.memory s').
Proof.
  intros Hn Hr. revert s'. apply rtc_ind_r; [lia|].
  intros y z Hy Hyz IH.
  assert (Hry : Peterson.reachable N y) by (unfold Peterson.reachable; etrans; eauto).
  destruct (peterson_step_counter N y z Hn Hry Hyz) as [[-> _] | [-> _]]; lia.
Qed.

(** X2. In the protected program [counter] never goes down: a step
    leaves it as it is or adds exactly one to it, so along any execution
    a later state never holds a smaller value than an earlier one. *)
Theorem peterson_counter_monotone (N : Z) (s s' : Peterson.state) :
  0 <= N <= INT_MAX →
  Peterson.reachable N s →
  rtc (Peterson.step N) s s' →
  Peterson.counter (Peterson.memory s) <= Peterson.counter (Peterson.memory s') ∧
  (Peterson.step N s s' →
   Peterson.counter (Peterson.memory s') = Peterson.counter (Peterson.memory s) ∨
   Peterson.counter (Peterson.memory s') =
     Peterson.counter (Peterson.memory s) + 1).
Proof.
  intros Hn Hr Hss. split.
  - apply (peterson_counter_le_steps N); assumption.
  - intros Hst.
    destruct (peterson_step_counter N s s' Hn Hr Hst) as [[-> _] | [-> _]];
      auto.
Qed.

Lemma peterson_counter_monotone_witness :
  0 <= ITERATIONS <= INT_MAX ∧
  Peterson.reachable ITERATIONS Peterson.state_contend ∧
  rtc (Peterson.step ITERATIONS) Peterson.state_contend Peterson.state_exit ∧
  Peterson.counter (Peterson.memory Peterson.state_contend) <=
  Peterson.counter (Peterson.memory Peterson.state_exit).
Proof.
  assert (Hn : 0 <= ITERATIONS <= INT_MAX)
    by (unfold ITERATIONS, INT_MAX; lia).
  assert (Hr : Peterson.reachable ITERATIONS Peterson.state_contend).
  { apply (peterson_run_reachable _ Peterson.sched_contend).
    vm_compute. reflexivity. }
  assert (Hs : rtc (Peterson.step ITERATIONS)
                 Peterson.state_contend Peterson.state_exit).
  { apply (peterson_run_steps _
             [Peterson.Thr 0; Peterson.Thr 0; Peterson.Thr 1;
              Peterson.Thr 0; Peterson.Thr 1]).
    vm_compute. reflexivity. }
  split; [exact Hn|]. split; [exact Hr|]. split; [exact Hs|].
  exact (proj1 (peterson_counter_monotone ITERATIONS _ _ Hn Hr Hs)).
Defined.

(** ** The protected program: flags, progress of single steps *)

(** X3. [flag[k]] is true exactly while thread k is between its store
    [flag[id] = true] and its store [flag[id] = false]: in every state
    the array holds, for each of the two threads, whether it is in that
    region; a thread that is not yet created, is outside the region or
    has returned has its flag false, and once [main] is past the joins
    both flags are false. *)
Theorem peterson_flags_reflect_interest (N : Z) (s : Peterson.state) :
  Peterson.reachable N s →
  Peterson.flag (Peterson.memory s) =
    [ Peterson.interested (Peterson.pc (Peterson.slot 0 (Peterson.threads s)));
      Peterson.interested (Peterson.pc (Peterson.slot 1 (Peterson.threads s))) ] ∧
  (∀ n th,
     Peterson.threads s !! n = Some th →
     Peterson.pc th ≠ Peterson.P_entry →
     Peterson.flag_load (Peterson.flag (Peterson.memory s)) (Peterson.id th)
       = Some (Peterson.interested (Peterson.pc th))) ∧
  (Peterson.after_joins (Peterson.mpc s) = true →
   Peterson.flag (Peterson.memory s) = [false; false]).
Proof.
  intros Hr. pose proof (reachable_inv N s Hr) as Hi.
  assert (Hf := proj1 (proj2 (proj2 (proj2 Hi)))).
  split; [exact Hf|]. split.
  - intros n th Hn Hpc.
    destruct (peterson_thread_ids N s n th Hi Hn Hpc) as (Hc & Hid & _).
    destruct (peterson_threads_cases N s n th Hi Hn) as [_ Hs].
    rewrite Hid, Hf, Hs. destruct Hc as [-> | ->]; reflexivity.
  - intros Hj. destruct Hi as [(Hsh & _) _].
    unfold Peterson.shape in Hsh.
    destruct (Peterson.mpc s); try discriminate;
      destruct Hsh as (_ & _ & _ & Hd0 & Hd1);
      rewrite Hf, Hd0, Hd1; reflexivity.
Qed.

Lemma peterson_flags_reflect_interest_witness :
  Peterson.reachable ITERATIONS Peterson.state_exit ∧
  Peterson.flag (Peterson.memory Peterson.state_exit) = [true; true].
Proof.
  assert (Hr : Peterson.reachable ITERATIONS Peterson.state_exit).
  { apply (peterson_run_reachable _ Peterson.sched_exit).
    vm_compute. reflexivity. }
  split; [exact Hr|].
  exact (proj1 (peterson_flags_reflect_interest ITERATIONS _ Hr)).
Defined.

(** A thread that has not returned can always take its next step: the
    indices it uses for [flag] are inside the array. *)
Lemma peterson_thread_enabled N s n th :
  Peterson.inv N s → Peterson.threads s !! n = Some th →
  Peterson.pc th ≠ Peterson.P_done →
  ∃ s', Peterson.sys_step N (Peterson.Thr n) s = Some s'.
Proof.
  intros Hi Hn Hd.
  unfold Peterson.sys_step. rewrite Hn. simpl.
  destruct (Peterson.pc th) eqn:Hpc.
  1: { unfold Peterson.thread_step. rewrite Hpc. simpl. eauto. }
  all: destruct (peterson_thread_ids N s n th Hi Hn) as (Hc & Hid & Ho & _);
    [congruence|].
  all: destruct Hi as [_ (_ & _ & Hf & _)].
  all: unfold Peterson.thread_step; rewrite Hpc, ?Hid, ?Ho, ?Hf.
  all: try congruence.
  all: destruct Hc as [-> | ->]; simpl; eauto.
Qed.

(** X4. The protected program never gets stuck before its end: in every
    state of every execution a thread that has not returned can take its
    next step (its accesses to [flag] are always inside the array), while
    [main] has not reached [return 0] some agent can take a step, and a
    state in which [main] has reached it has no step left. *)
Theorem peterson_never_stuck (N : Z) (s : Peterson.state) :
  Peterson.reachable N s →
  (∀ n th,
     Peterson.threads s !! n = Some th →
     Peterson.pc th ≠ Peterson.P_done →
     ∃ s', Peterson.sys_step N (Peterson.Thr n) s = Some s') ∧
  (Peterson.mpc s ≠ Peterson.M_exit →
   ∃ a s', Peterson.sys_step N a s = Some s') ∧
  (Peterson.mpc s = Peterson.M_exit →
   ∀ a, Peterson.sys_step N a s = None).
Proof.
  intros Hr. pose proof (reachable_inv N s Hr) as Hi.
  split; [intros n th; apply (peterson_thread_enabled N s n th Hi)|].
  split.
  - intros Hne.
    destruct (Peterson.main_step N s) as [s'|] eqn:Em;
      [exists Peterson.Main, s'; exact Em|].
    pose proof Hi as [(Hsh & _) _].
    unfold Peterson.main_step in Em. unfold Peterson.shape in Hsh.
    destruct (Peterson.mpc s) eqn:El; try discriminate; try congruence.
    + destruct Hsh as (Hl & Ht1 & _). rewrite Ht1 in Em.
      destruct (Peterson.threads s) as [|a [|b [|c l]]] eqn:Eth;
        try discriminate.
      simpl in Em. destruct (Peterson.pc a) eqn:Ea; try discriminate.
      all: destruct (peterson_thread_enabled N s 0%nat a Hi) as [s' Hs'];
        [rewrite Eth; reflexivity | congruence |].
      all: exists (Peterson.Thr 0), s'; exact Hs'.
    + destruct Hsh as (Hl & _ & Ht2 & _). rewrite Ht2 in Em.
      destruct (Peterson.threads s) as [|a [|b [|c l]]] eqn:Eth;
        try discriminate.
      simpl in Em. destruct (Peterson.pc b) eqn:Eb; try discriminate.
      all: destruct (peterson_thread_enabled N s 1%nat b Hi) as [s' Hs'];
        [rewrite Eth; reflexivity | congruence |].
      all: exists (Peterson.Thr 1), s'; exact Hs'.
  - intros He [|n]; simpl.
    + unfold Peterson.main_step. rewrite He. reflexivity.
    + destruct (Peterson.threads s !! n) as [th|] eqn:En; simpl;
        [|reflexivity].
      destruct (peterson_threads_cases N s n th Hi En) as [Hc Hs].
      destruct Hi as [(Hsh & _) _]. unfold Peterson.shape in Hsh.
      rewrite He in Hsh. destruct Hsh as (_ & _ & _ & Hd0 & Hd1).
      unfold Peterson.thread_step.
      destruct Hc as [-> | ->]; subst th; rewrite ?Hd0, ?Hd1; reflexivity.
Qed.

Lemma peterson_never_stuck_witness :
  Peterson.reachable ITERATIONS Peterson.state_waiting ∧
  ∃ a s', Peterson.sys_step ITERATIONS a Peterson.state_waiting = Some s'.
Proof.
  assert (Hr : Peterson.reachable ITERATIONS Peterson.state_waiting).
  { apply (peterson_run_reachable _ Peterson.sched_waiting).
    vm_compute. reflexivity. }
  split; [exact Hr|].
  apply (proj1 (proj2 (peterson_never_stuck ITERATIONS _ Hr))).
  discriminate.
Defined.

(** ** No arithmetic of either program overflows *)

(** X5. In the protected program, with [ITERATIONS] a value of type [int]
    that is not negative, no arithmetic ever overflows: the loop counter
    of a thread stays between 0 and [ITERATIONS/2], and whenever a thread
    is about to compute [1 - id], [temp + 1] or [i++] the result is
    inside the range of its type, so the machine result is the
    mathematical one. *)
Theorem peterson_no_overflow (N : Z) (s : Peterson.state) (n : nat)
    (th : Peterson.thread) :
  0 <= N <= INT_MAX →
  Peterson.reachable N s →
  Peterson.threads s !! n = Some th →
  0 <= Peterson.i th <= N ÷ 2 ∧
  (Peterson.pc th = Peterson.P_entry →
   wrap_int (1 - Peterson.deref (Peterson.memory s) (Peterson.arg th))
   = 1 - Peterson.deref (Peterson.memory s) (Peterson.arg th)) ∧
  (Peterson.pc th = Peterson.P_add →
   0 <= Peterson.temp th ∧ Peterson.temp th + 1 <= N ∧
   wrap_long (Peterson.temp th + 1) = Peterson.temp th + 1) ∧
  (Peterson.pc th = Peterson.P_incr →
   Peterson.i th + 1 <= N ÷ 2 ∧
   wrap_int (Peterson.i th + 1) = Peterson.i th + 1).
Proof.
  intros Hn Hr Hth.
  pose proof (reachable_inv N s Hr) as Hi.
  pose proof (reachable_counter_inv N Hn s Hr)
    as (La & Lb & Hc & Ta & Tb & _).
  pose proof (completed_le N _ La) as Ca.
  pose proof (completed_le N _ Lb) as Cb.
  pose proof (quot2_bounds N ltac:(lia)) as [Hq1 Hq2].
  destruct (peterson_threads_cases N s n th Hi Hth) as [Hc01 Hs].
  assert (Hargs : Peterson.pc th = Peterson.P_entry →
            Peterson.deref (Peterson.memory s) (Peterson.arg th) = Z.of_nat n).
  { intros _. destruct Hi as [(Hsh & Hids & _) (H0 & H1 & _)].
    assert (Hst : Peterson.mpc s ≠ Peterson.M_start).
    { intros E. unfold Peterson.shape in Hsh. rewrite E in Hsh.
      rewrite Hsh in Hth. discriminate. }
    destruct (Hids Hst) as [Hi0 Hi1].
    destruct Hc01 as [-> | ->]; subst th.
    - rewrite (proj1 H0). exact Hi0.
    - rewrite (proj1 H1). exact Hi1. }
  assert (Hl : Peterson.loop_ok N th ∧ Peterson.temp_ok (Peterson.memory s) th ∧
               Peterson.counter (Peterson.memory s) - Peterson.completed th
                 <= N ÷ 2 ∧
               0 <= Peterson.counter (Peterson.memory s) - Peterson.completed th).
  { destruct Hc01 as [-> | ->]; subst th;
      [ refine (conj La (conj Ta (conj _ _)))
      | refine (conj Lb (conj Tb (conj _ _))) ]; lia. }
  destruct Hl as ((Li & Lbody & _) & (Tadd & _) & Hoth & Hoth').
  split; [exact Li|]. split; [|split].
  - intros Hpc. rewrite (Hargs Hpc).
    apply wrap_int_small. unfold INT_MIN, INT_MAX.
    destruct Hc01 as [-> | ->]; simpl; lia.
  - intros Hpc. specialize (Tadd Hpc).
    unfold Peterson.completed in Hoth, Hoth'. rewrite Hpc in Hoth, Hoth', Lbody.
    simpl in Hoth, Hoth', Lbody. specialize (Lbody eq_refl).
    assert (0 <= Peterson.temp th ∧ Peterson.temp th + 1 <= N) as [? ?] by lia.
    repeat split; try lia.
    apply wrap_long_small. unfold LONG_MIN, LONG_MAX, INT_MAX in *. lia.
  - intros Hpc. rewrite Hpc in Lbody. specialize (Lbody eq_refl).
    split; [lia|].
    apply wrap_int_small. unfold INT_MIN, INT_MAX in *. lia.
Qed.

Lemma peterson_no_overflow_witness :
  0 <= ITERATIONS <= INT_MAX ∧
  Peterson.reachable ITERATIONS Peterson.state_entered ∧
  0 <= 0 <= ITERATIONS ÷ 2.
Proof.
  assert (Hn : 0 <= ITERATIONS <= INT_MAX)
    by (unfold ITERATIONS, INT_MAX; lia).
  assert (Hr : Peterson.reachable ITERATIONS Peterson.state_entered).
  { apply (peterson_run_reachable _ Peterson.sched_entered).
    vm_compute. reflexivity. }
  split; [exact Hn|]. split; [exact Hr|].
  exact (proj1 (peterson_no_overflow ITERATIONS _ 0%nat
                  (Peterson.Thread Peterson.Id0 Peterson.P_read 0 1 0 0)
                  Hn Hr eq_refl)).
Defined.

(** X6. In the unsynchronised program, with [ITERATIONS] a value of type
    [int] that is not negative, no arithmetic ever overflows either: the
    loop counter of a thread stays between 0 and [ITERATIONS/2], the
    value a thread holds in [temp] when it is about to add one is between
    0 and [ITERATIONS - 1], and [temp + 1] and [i++] give the
    mathematical result. *)
Theorem race_no_overflow (N : Z) (s : Race.state) (n : nat)
    (th : Race.thread) :
  0 <= N <= INT_MAX →
  Race.reachable N s →
  Race.threads s !! n = Some th →
  0 <= Race.i th <= N ÷ 2 ∧
  (Race.pc th = Race.R_add →
   0 <= Race.temp th ∧ Race.temp th + 1 <= N ∧
   wrap_long (Race.temp th + 1) = Race.temp th + 1) ∧
  (Race.pc th = Race.R_incr →
   Race.i th + 1 <= N ÷ 2 ∧ wrap_int (Race.i th + 1) = Race.i th + 1).
Proof.
  intros Hn Hr Hth.
  pose proof (race_reachable_main_inv N s Hr) as Hi.
  pose proof (race_reachable_counter_inv N Hn s Hr)
    as (La & Lb & Hc & Ta & Tb & _).
  pose proof (race_completed_le N _ La) as Ca.
  pose proof (race_completed_le N _ Lb) as Cb.
  pose proof (quot2_bounds N ltac:(lia)) as [Hq1 Hq2].
  destruct (race_threads_cases N s n th Hi Hth) as [Hc01 Hs].
  set (d := Race.completed (Race.slot 0 (Race.threads s)) +
            Race.completed (Race.slot 1 (Race.threads s))) in *.
  assert (Hl : Race.loop_ok N th ∧ Race.temp_ok d th ∧
               d - Race.completed th <= N ÷ 2).
  { destruct Hc01 as [-> | ->]; subst th;
      [ refine (conj La (conj Ta _)) | refine (conj Lb (conj Tb _)) ];
      unfold d; lia. }
  destruct Hl as ((Li & Lbody & _) & Tok & Hoth).
  split; [exact Li|]. split.
  - intros Hpc. unfold Race.temp_ok in Tok.
    unfold Race.completed in Hoth. rewrite Hpc in Tok, Hoth, Lbody.
    simpl in Hoth, Lbody. specialize (Lbody eq_refl).
    assert (0 <= Race.temp th ∧ Race.temp th + 1 <= N) as [? ?] by lia.
    repeat split; try lia.
    apply wrap_long_small. unfold LONG_MIN, LONG_MAX, INT_MAX in *. lia.
  - intros Hpc. rewrite Hpc in Lbody. specialize (Lbody eq_refl).
    split; [lia|].
    apply wrap_int_small. unfold INT_MIN, INT_MAX in *. lia.
Qed.

Lemma race_no_overflow_witness :
  0 <= 2 <= INT_MAX ∧
  Race.reachable 2 Race.state_lost ∧
  0 <= 1 <= 2 ÷ 2.
Proof.
  assert (Hn : 0 <= 2 <= INT_MAX) by (unfold INT_MAX; lia).
  assert (Hr : Race.reachable 2 Race.state_lost).
  { apply (race_run_reachable _ Race.sched_lost). vm_compute. reflexivity. }
  split; [exact Hn|]. split; [exact Hr|].
  exact (proj1 (race_no_overflow 2 _ 0%nat (Race.Thread Race.R_done 1 1)
                  Hn Hr eq_refl)).
Defined.

(** ** What the protected program prints *)

Lemma peterson_joined_counter N s :
  0 <= N <= INT_MAX →
  Peterson.reachable N s →
  Peterson.after_joins (Peterson.mpc s) = true →
  Peterson.counter (Peterson.memory s) = 2 * (N ÷ 2).
Proof.
  intros Hn Hr Hj.
  pose proof (reachable_inv N s Hr) as Hi.
  pose proof (reachable_counter_inv N Hn s Hr) as Hc.
  destruct (peterson_joined_completed N s Hi Hc Hj) as [C0 C1].
  destruct Hc as (_ & _ & Hcnt & _). lia.
Qed.

Lemma quot2_odd (n : Z) : 0 <= n → Z.even n = false → 2 * (n ÷ 2) = n - 1.
Proof.
  intros Hn He. rewrite Z.quot_div_nonneg by lia.
  rewrite <- Z.negb_odd in He. apply negb_false_iff in He.
  apply Z.odd_spec in He. destruct He as [k ->].
  replace (2 * k + 1) with (1 + k * 2) by lia.
  rewrite Z.div_add by lia. change (1 / 2) with 0. lia.
Qed.

(** X7. With an even [ITERATIONS] (of type [int], not negative) the
    output of the protected program is the same in every execution: a
    finished run has printed the banner, "Actual final value" with
    [ITERATIONS] and the two success lines, and at no point of any
    execution has the line "Unexpected result" been printed. *)
Theorem peterson_output_even (N : Z) (s : Peterson.state) :
  0 <= N <= INT_MAX →
  Z.even N = true →
  Peterson.reachable N s →
  (Peterson.mpc s = Peterson.M_exit →
   Peterson.printed (Peterson.hist s) =
     [ Printf "=== Peterson's Algorithm Demonstration ===\n" [];
       Printf "Expected final value: %d\n" [N];
       Printf "Starting threads with Peterson's mutual exclusion...\n\n" [];
       Printf "Actual final value: %ld\n" [N];
       Printf "MUTUAL EXCLUSION GUARANTEED - No lost updates\n" [];
       Printf "Peterson's algorithm prevents race conditions\n" [] ]) ∧
  (∀ v, ¬ In (Printf "Unexpected result: %ld\n" [v])
            (Peterson.printed (Peterson.hist s))).
Proof.
  intros Hn He Hr.
  destruct (reachable_inv N s Hr) as [(_ & _ & Hm) _].
  pose proof (peterson_joined_counter N s Hn Hr) as Hc.
  pose proof (quot2_even N ltac:(lia) He) as Hq.
  unfold Peterson.printed. rewrite Hm. split.
  - intros Hx. rewrite Hx in *. rewrite (Hc eq_refl), Hq. simpl.
    unfold Peterson.verdict. rewrite Z.eqb_refl. reflexivity.
  - intros v Hv.
    destruct (Peterson.mpc s); simpl in Hv, Hc.
    all: try rewrite (Hc eq_refl), Hq in Hv.
    all: unfold Peterson.verdict in Hv; rewrite ?Z.eqb_refl in Hv;
      simpl in Hv.
    all: repeat (destruct Hv as [Hv | Hv]; [discriminate|]);
      contradiction.
Qed.

Lemma peterson_output_even_witness :
  0 <= 2 <= INT_MAX ∧ Z.even 2 = true ∧
  Peterson.reachable 2 Peterson.state_whole ∧
  Peterson.printed (Peterson.hist Peterson.state_whole) =
    [ Printf "=== Peterson's Algorithm Demonstration ===\n" [];
      Printf "Expected final value: %d\n" [2];
      Printf "Starting threads with Peterson's mutual exclusion...\n\n" [];
      Printf "Actual final value: %ld\n" [2];
      Printf "MUTUAL EXCLUSION GUARANTEED - No lost updates\n" [];
      Printf "Peterson's algorithm prevents race conditions\n" [] ].
Proof.
  assert (Hn : 0 <= 2 <= INT_MAX) by (unfold INT_MAX; lia).
  assert (Hr : Peterson.reachable 2 Peterson.state_whole).
  { apply (peterson_run_reachable _ Peterson.sched_whole).
    vm_compute. reflexivity. }
  split; [exact Hn|]. split; [reflexivity|]. split; [exact Hr|].
  exact (proj1 (peterson_output_even 2 _ Hn eq_refl Hr) eq_refl).
Defined.

(** X8. With an odd [ITERATIONS] (of type [int], not negative) the two
    loops of [ITERATIONS/2] rounds add up to [ITERATIONS - 1]: once
    [main] is past the joins [counter] is [ITERATIONS - 1] in every
    execution, and a finished run has printed "Unexpected result" with
    that value and never the success lines, although no update was
    lost. *)
Theorem peterson_output_odd (N : Z) (s : Peterson.state) :
  0 <= N <= INT_MAX →
  Z.even N = false →
  Peterson.reachable N s →
  (Peterson.after_joins (Peterson.mpc s) = true →
   Peterson.counter (Peterson.memory s) = N - 1) ∧
  (Peterson.mpc s = Peterson.M_exit →
   Peterson.printed (Peterson.hist s) =
     [ Printf "=== Peterson's Algorithm Demonstration ===\n" [];
       Printf "Expected final value: %d\n" [N];
       Printf "Starting threads with Peterson's mutual exclusion...\n\n" [];
       Printf "Actual final value: %ld\n" [N - 1];
       Printf "Unexpected result: %ld\n" [N - 1] ]).
Proof.
  intros Hn He Hr.
  destruct (reachable_inv N s Hr) as [(_ & _ & Hm) _].
  pose proof (peterson_joined_counter N s Hn Hr) as Hc.
  pose proof (quot2_odd N ltac:(lia) He) as Hq.
  split.
  - intros Hj. rewrite (Hc Hj). exact Hq.
  - intros Hx. unfold Peterson.printed. rewrite Hm.
    rewrite Hx in *. rewrite (Hc eq_refl), Hq. simpl.
    unfold Peterson.verdict.
    destruct (Z.eqb_spec (N - 1) N) as [E | _]; [lia|]. reflexivity.
Qed.

Lemma peterson_output_odd_witness :
  0 <= 3 <= INT_MAX ∧ Z.even 3 = false ∧
  Peterson.reachable 3 Peterson.state_whole_odd ∧
  Peterson.printed (Peterson.hist Peterson.state_whole_odd) =
    [ Printf "=== Peterson's Algorithm Demonstration ===\n" [];
      Printf "Expected final value: %d\n" [3];
      Printf "Starting threads with Peterson's mutual exclusion...\n\n" [];
      Printf "Actual final value: %ld\n" [3 - 1];
      Printf "Unexpected result: %ld\n" [3 - 1] ].
Proof.
  assert (Hn : 0 <= 3 <= INT_MAX) by (unfold INT_MAX; lia).
  assert (Hr : Peterson.reachable 3 Peterson.state_whole_odd).
  { apply (peterson_run_reachable _ Peterson.sched_whole).
    vm_compute. reflexivity. }
  split; [exact Hn|]. split; [reflexivity|]. split; [exact Hr|].
  exact (proj2 (peterson_output_odd 3 _ Hn eq_refl Hr) eq_refl).
Defined.

(** ** The protected program: who gets through the wait *)

(** A thread in its wait loop whose turn it is not, and whose rival
    keeps its flag set, goes round for ever. *)
Lemma peterson_spin_stays N m th (fuel : nat) :
  Peterson.in_wait (Peterson.pc th) = true →
  Peterson.flag_load (Peterson.flag m) (Peterson.other th) = Some true →
  Peterson.turn m = Peterson.other th →
  ∃ th', Peterson.spin N m fuel th = Some th' ∧
         Peterson.in_wait (Peterson.pc th') = true.
Proof.
  revert th. induction fuel as [|fuel IH]; intros th Hw Hf Ht; simpl.
  - eauto.
  - rewrite Hw. unfold Peterson.thread_step.
    destruct th as [p l k o j t]. simpl in *.
    destruct l; try discriminate; simpl.
    + rewrite Hf. simpl. apply IH; auto.
    + rewrite Ht, Z.eqb_refl. simpl. apply IH; auto.
Qed.

(** X9. When both threads are in their wait loops, [turn] decides: the
    thread whose id [turn] holds leaves the loop for the critical section
    within its next two loads, and the other one keeps spinning for as
    long as the memory stays as it is.  So two contending threads never
    block each other: exactly one of them gets through. *)
Theorem peterson_tie_break (N : Z) (s : Peterson.state) (n k : nat)
    (th tk : Peterson.thread) :
  Peterson.reachable N s →
  n ≠ k →
  Peterson.threads s !! n = Some th →
  Peterson.threads s !! k = Some tk →
  Peterson.in_wait (Peterson.pc th) = true →
  Peterson.in_wait (Peterson.pc tk) = true →
  (Peterson.turn (Peterson.memory s) = Peterson.id th ∨
   Peterson.turn (Peterson.memory s) = Peterson.id tk) ∧
  Peterson.id th ≠ Peterson.id tk ∧
  (Peterson.turn (Peterson.memory s) = Peterson.id th →
   (∃ th', Peterson.spin N (Peterson.memory s) 2 th = Some th' ∧
           Peterson.pc th' = Peterson.P_read) ∧
   (∀ fuel, ∃ tk', Peterson.spin N (Peterson.memory s) fuel tk = Some tk' ∧
                   Peterson.in_wait (Peterson.pc tk') = true)).
Proof.
  intros Hr Hnk Hn Hk Hwn Hwk.
  pose proof (reachable_inv N s Hr) as Hi.
  destruct (peterson_thread_ids N s n th Hi Hn) as (Hcn & Hidn & Hon & _).
  { intros E. rewrite E in Hwn. discriminate. }
  destruct (peterson_thread_ids N s k tk Hi Hk) as (Hck & Hidk & Hok & _).
  { intros E. rewrite E in Hwk. discriminate. }
  destruct (peterson_threads_cases N s n th Hi Hn) as [_ Hsn].
  destruct (peterson_threads_cases N s k tk Hi Hk) as [_ Hsk].
  destruct Hi as [_ (_ & _ & Hf & Ht & _)].
  assert (Hin : Peterson.interested (Peterson.pc th) = true).
  { destruct (Peterson.pc th); try discriminate; reflexivity. }
  assert (Hik : Peterson.interested (Peterson.pc tk) = true).
  { destruct (Peterson.pc tk); try discriminate; reflexivity. }
  assert (Hfn : Peterson.flag_load (Peterson.flag (Peterson.memory s))
                  (Peterson.other th) = Some true).
  { rewrite Hon.
    destruct Hcn as [-> | ->], Hck as [-> | ->]; try congruence;
      rewrite <- Hsn, <- Hsk in Hf; rewrite Hf, Hin, Hik; reflexivity. }
  assert (Hfk : Peterson.flag_load (Peterson.flag (Peterson.memory s))
                  (Peterson.other tk) = Some true).
  { rewrite Hok.
    destruct Hcn as [-> | ->], Hck as [-> | ->]; try congruence;
      rewrite <- Hsn, <- Hsk in Hf; rewrite Hf, Hin, Hik; reflexivity. }
  assert (Hids : Peterson.id th ≠ Peterson.id tk ∧
                 Peterson.other tk = Peterson.id th ∧
                 Peterson.other th = Peterson.id tk ∧
                 (Peterson.turn (Peterson.memory s) = Peterson.id th ∨
                  Peterson.turn (Peterson.memory s) = Peterson.id tk)).
  { rewrite Hidn, Hidk, Hon, Hok.
    destruct Hcn as [-> | ->], Hck as [-> | ->]; try congruence;
      simpl; lia. }
  destruct Hids as (Hne & Hotk & Hoth & Hturns).
  split; [exact Hturns|]. split; [exact Hne|].
  intros Hturn. split.
  - unfold Peterson.spin, Peterson.thread_step.
    destruct th as [p l i o j t]. simpl in *.
    destruct l; try discriminate; simpl.
    + rewrite Hfn. simpl.
      destruct (Z.eqb_spec (Peterson.turn (Peterson.memory s)) o);
        [congruence|].
      simpl. eauto.
    + destruct (Z.eqb_spec (Peterson.turn (Peterson.memory s)) o);
        [congruence|].
      simpl. eauto.
  - intros fuel. apply peterson_spin_stays; auto. congruence.
Qed.

Lemma peterson_tie_break_witness :
  Peterson.reachable ITERATIONS Peterson.state_waiting ∧
  Peterson.turn (Peterson.memory Peterson.state_waiting) = 0 ∧
  ∃ th', Peterson.spin ITERATIONS (Peterson.memory Peterson.state_waiting) 2
           (Peterson.Thread Peterson.Id0 Peterson.P_wait_turn 0 1 0 0)
         = Some th' ∧
         Peterson.pc th' = Peterson.P_read.
Proof.
  assert (Hr : Peterson.reachable ITERATIONS Peterson.state_waiting).
  { apply (peterson_run_reachable _ Peterson.sched_waiting).
    vm_compute. reflexivity. }
  split; [exact Hr|]. split; [reflexivity|].
  exact (proj1 (proj2 (proj2
    (peterson_tie_break ITERATIONS _ 0%nat 1%nat
       (Peterson.Thread Peterson.Id0 Peterson.P_wait_turn 0 1 0 0)
       (Peterson.Thread Peterson.Id1 Peterson.P_wait_flag 1 0 0 0)
       Hr ltac:(lia) eq_refl eq_refl eq_refl eq_refl)) eq_refl)).
Defined.

(** Steps of the other agents leave a thread as it is. *)
Lemma peterson_run_others_keep N n sched :
  ∀ s s' th,
    Peterson.run N sched s = Some s' →
    Forall (fun a => a ≠ Peterson.Thr n) sched →
    Peterson.threads s !! n = Some th →
    Peterson.threads s' !! n = Some th.
Proof.
  induction sched as [|a sched IH]; simpl; intros s s' th Hrun Hall Hth.
  - injection Hrun as <-. exact Hth.
  - destruct (Peterson.sys_step N a s) as [s1|] eqn:E; simpl in Hrun;
      [|discriminate].
    inversion Hall as [|? ? Ha Hall']; subst.
    apply (IH s1 s' th Hrun Hall').
    destruct a as [|k]; simpl in E.
    + unfold Peterson.main_step in E.
      destruct (Peterson.mpc s); simpl in E; repeat case_match;
        try discriminate; injection E as <-; simpl; auto.
      all: apply lookup_app_l_Some; exact Hth.
    + destruct (Peterson.threads s !! k) as [tk|] eqn:Ek; simpl in E;
        [|discriminate].
      destruct (Peterson.thread_step N (Peterson.memory s) tk)
        as [[[ac m'] tk']|]; simpl in E; [|discriminate].
      injection E as <-. simpl.
      rewrite list_lookup_insert_ne; [exact Hth | congruence].
Qed.

(** One load of a waiting thread whose rival has its flag down. *)
Lemma peterson_wait_load N s n k th s' :
  Peterson.inv N s →
  Peterson.threads s !! n = Some th →
  Peterson.in_wait (Peterson.pc th) = true →
  (k = 0%nat ∨ k = 1%nat) → k ≠ n →
  Peterson.interested
    (Peterson.pc (Peterson.slot k (Peterson.threads s))) = false →
  Peterson.sys_step N (Peterson.Thr n) s = Some s' →
  Peterson.threads s' !! n = Some (Peterson.goto th Peterson.P_read) ∨
  (Peterson.pc th = Peterson.P_wait_turn ∧
   Peterson.threads s' !! n = Some (Peterson.goto th Peterson.P_wait_flag)).
Proof.
  intros Hi Hn Hw Hk Hkn Hnot Hs.
  destruct (peterson_thread_ids N s n th Hi Hn) as (Hcn & _ & Hon & _).
  { intros E. rewrite E in Hw. discriminate. }
  destruct Hi as [_ (_ & _ & Hfl & _)].
  assert (Hf : Peterson.flag_load (Peterson.flag (Peterson.memory s))
                 (Peterson.other th) = Some false).
  { rewrite Hon, Hfl.
    destruct Hcn as [-> | ->], Hk as [-> | ->]; try congruence;
      rewrite Hnot; reflexivity. }
  unfold Peterson.sys_step in Hs. rewrite Hn in Hs. simpl in Hs.
  unfold Peterson.thread_step in Hs.
  assert (Hlt : (n < length (Peterson.threads s))%nat)
    by (eapply lookup_lt_Some; eauto).
  destruct th as [p l i o j t]. simpl in *.
  destruct l; try discriminate; simpl in Hs.
  - rewrite Hf in Hs. simpl in Hs. injection Hs as <-. simpl.
    left. rewrite list_lookup_insert_eq; auto.
  - destruct (Z.eqb_spec (Peterson.turn (Peterson.memory s)) o);
      injection Hs as <-; simpl.
    + right. split; [reflexivity|]. rewrite list_lookup_insert_eq; auto.
    + left. rewrite list_lookup_insert_eq; auto.
Qed.

(** X10. A thread in its wait loop is not held up by a rival that stays
    out.  In any interleaving: let the other agents take any steps, then
    the waiting thread its next load, then the other agents any steps
    again, then the waiting thread one more step.  If at the two moments
    the waiting thread takes its steps the rival is not between its store
    [flag[id] = true] and its store [flag[id] = false], the waiting
    thread stands at the head of the critical section, with its locals as
    they were, after the first or after the second of these steps. *)
Theorem peterson_uncontended_entry (N : Z)
    (s0 s1 s2 s3 s4 : Peterson.state) (n k : nat) (th : Peterson.thread)
    (before between : list Peterson.agent) :
  Peterson.reachable N s0 →
  Peterson.threads s0 !! n = Some th →
  Peterson.in_wait (Peterson.pc th) = true →
  (k = 0%nat ∨ k = 1%nat) → k ≠ n →
  Forall (fun a => a ≠ Peterson.Thr n) before →
  Peterson.run N before s0 = Some s1 →
  Peterson.sys_step N (Peterson.Thr n) s1 = Some s2 →
  Forall (fun a => a ≠ Peterson.Thr n) between →
  Peterson.run N between s2 = Some s3 →
  Peterson.sys_step N (Peterson.Thr n) s3 = Some s4 →
  Peterson.interested
    (Peterson.pc (Peterson.slot k (Peterson.threads s1))) = false →
  Peterson.interested
    (Peterson.pc (Peterson.slot k (Peterson.threads s3))) = false →
  Peterson.threads s2 !! n = Some (Peterson.goto th Peterson.P_read) ∨
  Peterson.threads s4 !! n = Some (Peterson.goto th Peterson.P_read).
Proof.
  intros Hr Hth Hw Hk Hkn Hbef Hrun1 Hst1 Hbet Hrun2 Hst2 Hq1 Hq3.
  assert (Hr1 : Peterson.reachable N s1).
  { unfold Peterson.reachable. etrans; [exact Hr|].
    eapply peterson_run_steps; eauto. }
  assert (Hr2 : Peterson.reachable N s2).
  { unfold Peterson.reachable. eapply rtc_r; [exact Hr1|].
    exists (Peterson.Thr n). exact Hst1. }
  assert (Hr3 : Peterson.reachable N s3).
  { unfold Peterson.reachable. etrans; [exact Hr2|].
    eapply peterson_run_steps; eauto. }
  pose proof (peterson_run_others_keep N n before s0 s1 th Hrun1 Hbef Hth)
    as Hth1.
  destruct (peterson_wait_load N s1 n k th s2 (reachable_inv N s1 Hr1)
              Hth1 Hw Hk Hkn Hq1 Hst1) as [Hin | [Hpc Hback]].
  - left. exact Hin.
  - right.
    pose proof (peterson_run_others_keep N n between s2 s3 _ Hrun2 Hbet Hback)
      as Hth3.
    destruct (peterson_wait_load N s3 n k _ s4 (reachable_inv N s3 Hr3)
                Hth3 eq_refl Hk Hkn Hq3 Hst2) as [Hin | [Hpc' _]].
    + exact Hin.
    + discriminate.
Qed.

Lemma peterson_uncontended_entry_witness :
  Peterson.reachable ITERATIONS Peterson.state_released ∧
  Peterson.threads Peterson.state_released !! 0%nat
    = Some (Peterson.Thread Peterson.Id0 Peterson.P_wait_turn 0 1 0 0) ∧
  Peterson.turn (Peterson.memory Peterson.state_released) = 1 ∧
  Peterson.sys_step ITERATIONS (Peterson.Thr 0) Peterson.state_released
    = Some Peterson.state_released_1 ∧
  Peterson.sys_step ITERATIONS (Peterson.Thr 0) Peterson.state_released_1
    = Some Peterson.state_released_2 ∧
  Peterson.threads Peterson.state_released_1 !! 0%nat
    = Some (Peterson.Thread Peterson.Id0 Peterson.P_wait_flag 0 1 0 0) ∧
  Peterson.threads Peterson.state_released_2 !! 0%nat
    = Some (Peterson.Thread Peterson.Id0 Peterson.P_read 0 1 0 0).
Proof.
  assert (Hr : Peterson.reachable ITERATIONS Peterson.state_released).
  { apply (peterson_run_reachable _ Peterson.sched_released).
    vm_compute. reflexivity. }
  assert (E1 : Peterson.sys_step ITERATIONS (Peterson.Thr 0)
                 Peterson.state_released = Some Peterson.state_released_1)
    by (vm_compute; reflexivity).
  assert (E2 : Peterson.sys_step ITERATIONS (Peterson.Thr 0)
                 Peterson.state_released_1 = Some Peterson.state_released_2)
    by (vm_compute; reflexivity).
  split; [exact Hr|]. split; [reflexivity|]. split; [reflexivity|].
  split; [exact E1|]. split; [exact E2|]. split; [reflexivity|].
  destruct (peterson_uncontended_entry ITERATIONS
              Peterson.state_released Peterson.state_released
              Peterson.state_released_1 Peterson.state_released_1
              Peterson.state_released_2
              0%nat 1%nat
              (Peterson.Thread Peterson.Id0 Peterson.P_wait_turn 0 1 0 0)
              [] [] Hr eq_refl eq_refl (or_intror eq_refl) ltac:(lia)
              ltac:(constructor) eq_refl E1 ltac:(constructor) eq_refl E2
              eq_refl eq_refl) as [H | H].
  - discriminate H.
  - exact H.
Defined.

(** ** The unsynchronised program: how many updates can be lost *)

Section RaceFloor.

Import Race.

Variable N : Z.
Hypothesis N_range : 0 <= N <= INT_MAX.

Lemma race_floor_rel_sym c a b : floor_rel N c a b → floor_rel N c b a.
Proof. unfold floor_rel. intuition. Qed.

(** A step of either thread: [a] steps, [b] is the other thread. *)
Lemma race_floor_thread_step c a b ac c' a' :
  loop_ok N a → loop_ok N b →
  0 <= c <= completed a + completed b →
  temp_ok (completed a + completed b) a →
  floor_rel N c a b →
  thread_step N c a = Some (ac, c', a') →
  floor_rel N c' a' b.
Proof.
  intros La Lb Hc Ta (J1 & Ja & Jb & J3) Hs.
  pose proof (race_completed_le N _ La) as Ca.
  pose proof (race_completed_le N _ Lb) as Cb.
  pose proof (quot2_bounds N (proj1 N_range)) as [Hq1 Hq2].
  pose proof N_range as [Hn1 Hn2].
  destruct a as [l n t], b as [lb nb tb].
  unfold thread_step in Hs.
  unfold floor_rel, fresh_ok, loop_ok, temp_ok, completed in *.
  simpl in *.
  destruct La as (La1 & La2 & La3 & La4), Lb as (Lb1 & Lb2 & Lb3 & Lb4).
  destruct l; simpl in Hs.
  all: try match type of Hs with
         | context [?x <? ?y] => destruct (Z.ltb_spec x y)
         end.
  all: simplify_eq; simpl in *.
  all: repeat match goal with
         | H : ?x = ?x → _ |- _ => specialize (H eq_refl)
         end.
  all: rewrite ?wrap_long_small, ?wrap_int_small
         by (unfold LONG_MIN, LONG_MAX, INT_MIN, INT_MAX in *; lia).
  all: repeat split; intros; try exact I; try lia.
  all: try (apply Jb; assumption).
Qed.

Lemma race_floor_inv_init : floor_inv N init.
Proof.
  pose proof (quot2_bounds N (proj1 N_range)) as [Hq1 Hq2].
  unfold floor_inv, floor_rel, fresh_ok, completed, slot, init. simpl.
  repeat split; intros; try exact I; try lia.
Qed.

Lemma race_floor_inv_main_step s s' :
  main_inv N s → floor_inv N s → main_step N s = Some s' → floor_inv N s'.
Proof.
  intros (Hsh & _) Hc Hs.
  destruct s as [l h1 h2 ths c h]. unfold main_step in Hs.
  unfold floor_inv, shape in *. simpl in *.
  destruct l; simpl in *.
  all: destruct ths as [|a [|b [|d ths]]]; simpl in *;
    destruct_and? Hsh; try discriminate.
  all: repeat case_match; simplify_eq; simpl.
  all: exact Hc.
Qed.

Lemma race_floor_inv_thread_step s s' n :
  main_inv N s → counter_inv N s → floor_inv N s →
  sys_step N (Thr n) s = Some s' → floor_inv N s'.
Proof.
  intros (Hsh & _) Hc Hf Hs.
  destruct s as [l h1 h2 ths c h]. unfold sys_step in Hs. simpl in *.
  destruct (ths !! n) as [th|] eqn:En; simpl in Hs; [|discriminate].
  destruct (thread_step N c th) as [[[ac c'] th']|] eqn:Et;
    simpl in Hs; [|discriminate].
  simplify_eq.
  unfold counter_inv, floor_inv, shape, slot in *. simpl in *.
  destruct Hc as (La & Lb & Hc & Ta & Tb & _).
  assert (Hlen : (length ths <= 2)%nat).
  { destruct l; simpl in Hsh; destruct_and? Hsh; subst; simpl; lia. }
  clear Hsh.
  destruct ths as [|a [|b [|d ths]]]; destruct n as [|[|n]];
    simpl in *; simplify_eq; try lia.
  - apply (race_floor_thread_step c th _ ac c' th'); auto.
  - apply (race_floor_thread_step c th b ac c' th'); auto.
  - apply race_floor_rel_sym.
    rewrite (Z.add_comm (completed a)) in *.
    apply (race_floor_thread_step c th a ac c' th');
      auto using race_floor_rel_sym.
Qed.

Lemma race_reachable_floor_inv s : reachable N s → floor_inv N s.
Proof.
  intros H.
  cut (main_inv N s ∧ counter_inv N s ∧ floor_inv N s); [tauto|].
  revert s H. apply rtc_ind_r.
  - split; [apply race_main_inv_init|].
    split; [apply race_counter_inv_init, N_range | apply race_floor_inv_init].
  - intros y z _ [[|n] Hs] (Hy & Hc & Hf); simpl in Hs.
    + split; [eapply race_main_inv_main_step; eauto|].
      split; [eapply race_counter_inv_main_step; eauto|].
      eapply race_floor_inv_main_step; eauto.
    + split; [eapply race_main_inv_thread_step; eauto|].
      split; [eapply race_counter_inv_thread_step; eauto|].
      eapply race_floor_inv_thread_step; eauto.
Qed.

End RaceFloor.

(** X11. The unsynchronised program cannot lose every update: once [main]
    is past the joins, [counter] is at least 1 when each thread does at
    least one round ([ITERATIONS >= 2]) and at least 2 when each does at
    least two ([ITERATIONS >= 4]), in every execution. *)
Theorem race_final_at_least_two (N : Z) (s : Race.state) :
  0 <= N <= INT_MAX →
  Race.reachable N s →
  Race.after_joins (Race.mpc s) = true →
  (2 <= N → 1 <= Race.counter s) ∧
  (4 <= N → 2 <= Race.counter s).
Proof.
  intros Hn Hr Hj.
  pose proof (race_reachable_main_inv N s Hr) as Hi.
  pose proof (race_reachable_counter_inv N Hn s Hr) as Hc.
  destruct (race_joined_completed N s Hi Hc Hj) as [C0 C1].
  destruct (race_reachable_floor_inv N Hn s Hr) as (J1 & _ & _ & J3).
  rewrite C0, C1 in *.
  split; intros HN.
  - assert (1 <= N ÷ 2) by (apply Z.quot_le_lower_bound; lia). lia.
  - assert (2 <= N ÷ 2) by (apply Z.quot_le_lower_bound; lia). lia.
Qed.

Lemma race_final_at_least_two_witness :
  0 <= 2 <= INT_MAX ∧
  Race.reachable 2 Race.state_lost ∧
  Race.after_joins (Race.mpc Race.state_lost) = true ∧
  1 <= Race.counter Race.state_lost.
Proof.
  assert (Hn : 0 <= 2 <= INT_MAX) by (unfold INT_MAX; lia).
  assert (Hr : Race.reachable 2 Race.state_lost).
  { apply (race_run_reachable _ Race.sched_lost). vm_compute. reflexivity. }
  split; [exact Hn|]. split; [exact Hr|]. split; [reflexivity|].
  apply (proj1 (race_final_at_least_two 2 _ Hn Hr eq_refl)). lia.
Defined.

(** X12. The unsynchronised program can lose all updates but two: for
    every [ITERATIONS] of at least 4 (of type [int]) there is an
    execution that runs to the end of [main] with [counter] equal to 2,
    and it prints [ITERATIONS - 2] lost updates.  With X11 this is the
    least final value there is. *)
Theorem race_can_lose_all_but_two (N : Z) :
  4 <= N <= INT_MAX →
  ∃ s,
    Race.reachable N s ∧ Race.mpc s = Race.M_exit ∧ Race.counter s = 2 ∧
    Race.printed (Race.hist s) =
      [ Printf "=== Race Condition Demonstration ===\n" [];
        Printf "Expected final value: %d\n" [N];
        Printf "Starting threads without synchronization...\n\n" [];
        Printf "Actual final value: %ld\n" [2];
        Printf " RACE CONDITION DETECTED! Lost %ld updates\n" [N - 2];
        Printf "Reason: Both threads read same value before either writes\n"
          [] ].
Proof.
  intros Hn.
  assert (H2 : 2 <= N ÷ 2) by (apply Z.quot_le_lower_bound; lia).
  destruct (race_run_lossy N ltac:(lia) H2) as (s & Hr & He & Hc).
  exists s. repeat split; auto.
  rewrite (race_printed_exit N s Hr He), Hc.
  unfold Race.verdict, Race.banner.
  destruct (Z.ltb_spec 2 N); [|lia].
  rewrite wrap_long_small
    by (unfold LONG_MIN, LONG_MAX, INT_MAX in *; lia).
  reflexivity.
Qed.

Lemma race_can_lose_all_but_two_witness :
  4 <= ITERATIONS <= INT_MAX ∧
  ∃ s,
    Race.reachable ITERATIONS s ∧ Race.mpc s = Race.M_exit ∧
    Race.counter s = 2.
Proof.
  assert (Hn : 4 <= ITERATIONS <= INT_MAX)
    by (unfold ITERATIONS, INT_MAX; lia).
  split; [exact Hn|].
  destruct (race_can_lose_all_but_two ITERATIONS Hn)
    as (s & Hr & He & Hc & _).
  exists s. auto.
Defined.

(** X13. The unsynchronised program can also lose nothing: for every
    [ITERATIONS] (of type [int], not negative) there is an execution that
    runs to the end of [main] with [counter] equal to
    2 * ([ITERATIONS]/2), and for an even [ITERATIONS] it prints
    "No race detected".  So for an even [ITERATIONS] of at least 4 both
    verdicts of the baseline can be printed, and one run proves
    nothing. *)
Theorem race_can_lose_nothing (N : Z) :
  0 <= N <= INT_MAX →
  ∃ s,
    Race.reachable N s ∧ Race.mpc s = Race.M_exit ∧
    Race.counter s = 2 * (N ÷ 2) ∧
    (Z.even N = true →
     Race.printed (Race.hist s) =
       [ Printf "=== Race Condition Demonstration ===\n" [];
         Printf "Expected final value: %d\n" [N];
         Printf "Starting threads without synchronization...\n\n" [];
         Printf "Actual final value: %ld\n" [N];
         Printf "No race detected this run (non-deterministic - try again)\n"
           [] ]).
Proof.
  intros Hn.
  destruct (race_run_sequential N Hn) as (s & Hr & He & Hc).
  exists s. repeat split; auto.
  intros Hev.
  rewrite (race_printed_exit N s Hr He), Hc, (quot2_even N ltac:(lia) Hev).
  unfold Race.verdict, Race.banner. rewrite Z.ltb_irrefl. reflexivity.
Qed.

Lemma race_can_lose_nothing_witness :
  0 <= ITERATIONS <= INT_MAX ∧
  ∃ s,
    Race.reachable ITERATIONS s ∧ Race.mpc s = Race.M_exit ∧
    Race.counter s = 100000.
Proof.
  assert (Hn : 0 <= ITERATIONS <= INT_MAX)
    by (unfold ITERATIONS, INT_MAX; lia).
  split; [exact Hn|].
  destruct (race_can_lose_nothing ITERATIONS Hn) as (s & Hr & He & Hc & _).
  exists s. auto.
Defined.

(** ** Odd and small values of [ITERATIONS] *)

(** X14. With an odd [ITERATIONS] (of type [int], not negative) the
    baseline reports a race in every execution, whether an update was
    lost or not: [counter] never exceeds [ITERATIONS - 1], a finished run
    has printed "RACE CONDITION DETECTED" with at least one lost update,
    and "No race detected" is never printed. *)
Theorem race_odd_always_reports (N : Z) (s : Race.state) :
  0 <= N <= INT_MAX →
  Z.even N = false →
  Race.reachable N s →
  Race.counter s <= N - 1 ∧
  (Race.mpc s = Race.M_exit →
   1 <= N - Race.counter s ∧
   Race.printed (Race.hist s) =
     [ Printf "=== Race Condition Demonstration ===\n" [];
       Printf "Expected final value: %d\n" [N];
       Printf "Starting threads without synchronization...\n\n" [];
       Printf "Actual final value: %ld\n" [Race.counter s];
       Printf " RACE CONDITION DETECTED! Lost %ld updates\n"
         [N - Race.counter s];
       Printf "Reason: Both threads read same value before either writes\n"
         [] ]) ∧
  ¬ In (Printf "No race detected this run (non-deterministic - try again)\n"
          [])
       (Race.printed (Race.hist s)).
Proof.
  intros Hn He Hr.
  pose proof (race_reachable_counter_inv N Hn s Hr) as (La & Lb & Hc & _).
  pose proof (race_completed_le N _ La).
  pose proof (race_completed_le N _ Lb).
  pose proof (quot2_odd N ltac:(lia) He) as Hq.
  assert (Hle : 0 <= Race.counter s <= N - 1) by lia.
  assert (Hv : Race.verdict N (Race.counter s) =
     [ Printf " RACE CONDITION DETECTED! Lost %ld updates\n"
         [N - Race.counter s];
       Printf "Reason: Both threads read same value before either writes\n"
         [] ]).
  { unfold Race.verdict. destruct (Z.ltb_spec (Race.counter s) N); [|lia].
    rewrite wrap_long_small
      by (unfold LONG_MIN, LONG_MAX, INT_MAX in *; lia).
    reflexivity. }
  split; [lia|]. split.
  - intros Hx. split; [lia|].
    rewrite (race_printed_exit N s Hr Hx), Hv. reflexivity.
  - destruct (race_reachable_main_inv N s Hr) as (_ & Hm).
    unfold Race.printed. rewrite Hm. intros Hin.
    destruct (Race.mpc s); simpl in Hin; rewrite ?Hv in Hin; simpl in Hin.
    all: repeat (destruct Hin as [Hin | Hin]; [discriminate|]);
      contradiction.
Qed.

Lemma race_odd_always_reports_witness :
  0 <= 3 <= INT_MAX ∧ Z.even 3 = false ∧
  Race.reachable 3 Race.state_seq_odd ∧
  Race.printed (Race.hist Race.state_seq_odd) =
    [ Printf "=== Race Condition Demonstration ===\n" [];
      Printf "Expected final value: %d\n" [3];
      Printf "Starting threads without synchronization...\n\n" [];
      Printf "Actual final value: %ld\n" [2];
      Printf " RACE CONDITION DETECTED! Lost %ld updates\n" [3 - 2];
      Printf "Reason: Both threads read same value before either writes\n"
        [] ].
Proof.
  assert (Hn : 0 <= 3 <= INT_MAX) by (unfold INT_MAX; lia).
  assert (Hr : Race.reachable 3 Race.state_seq_odd).
  { apply (race_run_reachable _ Race.sched_seq). vm_compute. reflexivity. }
  split; [exact Hn|]. split; [reflexivity|]. split; [exact Hr|].
  exact (proj2 (proj1 (proj2 (race_odd_always_reports 3 _ Hn eq_refl Hr))
                  eq_refl)).
Defined.

(** When [ITERATIONS/2] is not positive no thread ever enters the body of
    its loop. *)
Lemma peterson_idle N s :
  N ÷ 2 <= 0 →
  Peterson.reachable N s →
  Peterson.counter (Peterson.memory s) = 0 ∧
  Forall (fun th => Peterson.in_body (Peterson.pc th) = false ∧
                    Peterson.i th = 0) (Peterson.threads s).
Proof.
  intros Hq. revert s. apply rtc_ind_r.
  - split; [reflexivity | constructor].
  - intros y z _ [[|n] Hs] [Hc Hf]; simpl in Hs.
    + unfold Peterson.main_step in Hs.
      destruct (Peterson.mpc y); simpl in Hs; repeat case_match;
        try discriminate; injection Hs as <-; simpl; split; auto.
      all: apply Forall_app; split; auto.
    + destruct (Peterson.threads y !! n) as [th|] eqn:En; simpl in Hs;
        [|discriminate].
      destruct (Forall_lookup_1 _ _ _ _ Hf En) as [Hb Hi].
      destruct (Peterson.thread_step N (Peterson.memory y) th)
        as [[[ac m'] th']|] eqn:Et; simpl in Hs; [|discriminate].
      injection Hs as <-. simpl.
      unfold Peterson.thread_step in Et.
      destruct th as [p l k o j t]. simpl in *. subst j.
      destruct l; try discriminate; simpl in Et.
      * injection Et as <- <- <-. split; [exact Hc|].
        apply Forall_insert; auto.
      * destruct (Z.ltb_spec 0 (N ÷ 2)); [lia|].
        injection Et as <- <- <-. split; [exact Hc|].
        apply Forall_insert; auto.
Qed.

Lemma race_idle N s :
  N ÷ 2 <= 0 →
  Race.reachable N s →
  Race.counter s = 0 ∧
  Forall (fun th => Race.in_body (Race.pc th) = false ∧ Race.i th = 0)
    (Race.threads s).
Proof.
  intros Hq. revert s. apply rtc_ind_r.
  - split; [reflexivity | constructor].
  - intros y z _ [[|n] Hs] [Hc Hf]; simpl in Hs.
    + unfold Race.main_step in Hs.
      destruct (Race.mpc y); simpl in Hs; repeat case_match;
        try discriminate; injection Hs as <-; simpl; split; auto.
      all: apply Forall_app; split; auto.
    + destruct (Race.threads y !! n) as [th|] eqn:En; simpl in Hs;
        [|discriminate].
      destruct (Forall_lookup_1 _ _ _ _ Hf En) as [Hb Hi].
      destruct (Race.thread_step N (Race.counter y) th)
        as [[[ac c'] th']|] eqn:Et; simpl in Hs; [|discriminate].
      injection Hs as <-. simpl.
      unfold Race.thread_step in Et.
      destruct th as [l j t]. simpl in *. subst j.
      destruct l; try discriminate; simpl in Et.
      * injection Et as <- <- <-. split; [exact Hc|].
        apply Forall_insert; auto.
      * destruct (Z.ltb_spec 0 (N ÷ 2)); [lia|].
        injection Et as <- <- <-. split; [exact Hc|].
        apply Forall_insert; auto.
Qed.

(** X15. With [ITERATIONS] at most 1 (1, 0 or a negative value)
    [ITERATIONS/2] is not positive and the loops run no round: in both
    programs no thread ever enters the loop body and [counter] stays 0.
    A finished run of the protected program then prints its success
    lines only for [ITERATIONS = 0] and "Unexpected result" with 0
    otherwise, and a finished run of the baseline prints a race with one
    lost update for [ITERATIONS = 1], though no thread touched the
    counter, and "No race detected" otherwise. *)
Theorem no_rounds_when_small (N : Z) :
  N <= 1 →
  (∀ s, Peterson.reachable N s →
        Peterson.counter (Peterson.memory s) = 0 ∧
        (∀ n th, Peterson.threads s !! n = Some th →
                 Peterson.in_body (Peterson.pc th) = false) ∧
        (Peterson.mpc s = Peterson.M_exit →
         Peterson.printed (Peterson.hist s) =
           Peterson.banner N ++
           [ Printf "Actual final value: %ld\n" [0] ] ++
           (if N =? 0
            then [ Printf "MUTUAL EXCLUSION GUARANTEED - No lost updates\n" [];
                   Printf "Peterson's algorithm prevents race conditions\n"
                     [] ]
            else [ Printf "Unexpected result: %ld\n" [0] ]))) ∧
  (∀ s, Race.reachable N s →
        Race.counter s = 0 ∧
        (∀ n th, Race.threads s !! n = Some th →
                 Race.in_body (Race.pc th) = false) ∧
        (Race.mpc s = Race.M_exit →
         Race.printed (Race.hist s) =
           Race.banner N ++
           [ Printf "Actual final value: %ld\n" [0] ] ++
           (if N =? 1
            then [ Printf " RACE CONDITION DETECTED! Lost %ld updates\n" [1];
                   Printf
                     "Reason: Both threads read same value before either writes\n"
                     [] ]
            else [ Printf
                     "No race detected this run (non-deterministic - try again)\n"
                     [] ]))).
Proof.
  intros Hn.
  assert (Hq : N ÷ 2 <= 0).
  { change 0 with (1 ÷ 2). apply Z.quot_le_mono; lia. }
  split.
  - intros s Hr. destruct (peterson_idle N s Hq Hr) as [Hc Hf].
    split; [exact Hc|]. split.
    + intros n th Hth. apply (Forall_lookup_1 _ _ _ _ Hf Hth).
    + intros He. destruct (reachable_inv N s Hr) as [(_ & _ & Hm) _].
      unfold Peterson.printed. rewrite Hm, He, Hc. simpl.
      rewrite app_nil_r. unfold Peterson.verdict.
      rewrite (Z.eqb_sym 0 N). reflexivity.
  - intros s Hr. destruct (race_idle N s Hq Hr) as [Hc Hf].
    split; [exact Hc|]. split.
    + intros n th Hth. apply (Forall_lookup_1 _ _ _ _ Hf Hth).
    + intros He. rewrite (race_printed_exit N s Hr He), Hc.
      unfold Race.verdict.
      destruct (Z.eqb_spec N 1) as [-> | Hne]; [reflexivity|].
      destruct (Z.ltb_spec 0 N); [lia | reflexivity].
Qed.

Lemma no_rounds_when_small_witness :
  1 <= 1 ∧
  ∀ s, Race.reachable 1 s → Race.counter s = 0.
Proof.
  split; [lia|].
  intros s Hr.
  exact (proj1 (proj2 (no_rounds_when_small 1 ltac:(lia)) s Hr)).
Defined.

(** ** The protected program: bounded waiting *)

Section PetersonBypass.

Import Peterson.

Variable N : Z.

Lemma since_turn_snoc k h e :
  since_turn k (h ++ [e]) =
  if is_turn_store k e then [] else since_turn k h ++ [e].
Proof. unfold since_turn. rewrite fold_left_app. reflexivity. Qed.

Lemma count_loads_app (l1 l2 : list action) :
  count_loads (l1 ++ l2) = count_loads l1 + count_loads l2.
Proof.
  induction l1 as [|x l1 IH]; simpl; [lia|].
  destruct x; rewrite ?IH; lia.
Qed.

Lemma count_loads_nonneg (l : list action) : 0 <= count_loads l.
Proof. induction l as [|x l IH]; simpl; [lia|]. destruct x; lia. Qed.

(** The waiting thread [a] itself takes a step. *)
Lemma bypass_step_self kz m a b ac m' a' e :
  0 <= e →
  thread_step N m a = Some (ac, m', a') →
  bypass_rel kz m a b e →
  bypass_rel kz m' a' b
    (match ac with A_store_turn _ => 0 | _ => e end).
Proof.
  intros He Hs Hrel. unfold bypass_rel in *.
  unfold thread_step in Hs.
  destruct a as [p l k o j t], b as [pb lb kb ob jb tb]. simpl in *.
  destruct l; simpl in Hs.
  all: try match type of Hs with
         | context [flag_store ?f ?x ?v] =>
             destruct (flag_store f x v); simpl in Hs; [|discriminate]
         | context [flag_load ?f ?x] =>
             destruct (flag_load f x) as [[|]|]; simpl in Hs;
             try discriminate
         | context [?x <? ?y] => destruct (Z.ltb_spec x y)
         | context [?x =? ?y] => destruct (Z.eqb_spec x y)
         end.
  all: simplify_eq; simpl in *; intros Hw; try discriminate.
  all: try (apply Hrel; reflexivity).
  destruct lb; simpl; repeat split; intros; try discriminate; try lia.
Qed.

(** The other thread [b] takes a step. *)
Lemma bypass_step_other kz m a b ac m' b' e :
  (pc b ≠ P_entry → other b = kz) →
  (in_wait (pc a) = true → flag_load (flag m) kz = Some true) →
  thread_step N m b = Some (ac, m', b') →
  bypass_rel kz m a b e →
  bypass_rel kz m' a b'
    (e + match ac with A_load_counter _ => 1 | _ => 0 end).
Proof.
  intros Ho Hf Hs Hrel Hw. unfold bypass_rel in *.
  specialize (Hrel Hw). specialize (Hf Hw).
  destruct Hrel as (He & Hle & Hturn).
  unfold thread_step in Hs.
  destruct b as [pb l k o j t]. simpl in *.
  destruct l; simpl in Hs.
  2-12: specialize (Ho ltac:(discriminate)); subst o.
  all: rewrite ?Hf in Hs; simpl in Hs.
  all: try match type of Hs with
         | context [flag_store ?f ?x ?v] =>
             destruct (flag_store f x v); simpl in Hs; [|discriminate]
         | context [?x <? ?y] => destruct (Z.ltb_spec x y)
         | context [?x =? ?y] => destruct (Z.eqb_spec x y)
         end.
  all: simplify_eq; simpl in *.
  all: repeat split; intros; try discriminate; try lia.
  all: try (apply Hturn; [lia | reflexivity]).
Qed.

Lemma bypass_inv_init : bypass_inv init.
Proof. split; intros Hw; discriminate. Qed.

Lemma bypass_inv_main_step s s' :
  inv N s → bypass_inv s → main_step N s = Some s' → bypass_inv s'.
Proof.
  intros [(Hsh & _) _] Hb Hs.
  destruct s as [l h1 h2 ths m h]. unfold main_step in Hs.
  unfold bypass_inv, shape in *. simpl in *.
  destruct l; simpl in *.
  all: destruct ths as [|a [|b [|c ths]]]; simpl in *;
    destruct_and? Hsh; try discriminate.
  all: repeat case_match; simplify_eq; simpl.
  all: rewrite !since_turn_snoc; simpl.
  all: rewrite !actions_of_app; simpl; rewrite !app_nil_r.
  all: exact Hb.
Qed.

Lemma bypass_inv_thread_step s s' n :
  inv N s → bypass_inv s → sys_step N (Thr n) s = Some s' → bypass_inv s'.
Proof.
  intros [(Hsh & _) (Ha & Hb & Hf & _)] [B0 B1] Hs.
  destruct s as [l h1 h2 ths m h]. unfold sys_step in Hs. simpl in *.
  destruct (ths !! n) as [th|] eqn:En; simpl in Hs; [|discriminate].
  destruct (thread_step N m th) as [[[ac m'] th']|] eqn:Et;
    simpl in Hs; [|discriminate].
  simplify_eq.
  assert (Hlen : (length ths <= 2)%nat).
  { unfold shape in Hsh. simpl in Hsh.
    destruct l; destruct_and? Hsh; subst; simpl; lia. }
  clear Hsh.
  unfold bypass_inv. simpl.
  rewrite !since_turn_snoc.
  assert (Hn : n = 0%nat ∨ n = 1%nat).
  { apply lookup_lt_Some in En. lia. }
  pose proof (count_loads_nonneg
                (actions_of (Thr 1) (since_turn 0 h))) as E0.
  pose proof (count_loads_nonneg
                (actions_of (Thr 0) (since_turn 1 h))) as E1.
  set (e0 := count_loads (actions_of (Thr 1) (since_turn 0 h))) in *.
  set (e1 := count_loads (actions_of (Thr 0) (since_turn 1 h))) in *.
  destruct Hn as [-> | ->].
  - assert (Hth : th = slot 0 ths) by (symmetry; apply slot_lookup, En).
    assert (S0 : slot 0 (<[0%nat := th']> ths) = th').
    { unfold slot. rewrite list_lookup_insert_eq; auto.
      eapply lookup_lt_Some; eauto. }
    assert (S1 : slot 1 (<[0%nat := th']> ths) = slot 1 ths).
    { unfold slot. rewrite list_lookup_insert_ne; auto. }
    rewrite S0, S1. rewrite <- Hth in *.
    split.
    + pose proof (bypass_step_self 0 m th (slot 1 ths) ac m' th' e0 E0 Et B0)
        as Hself.
      destruct ac; simpl; rewrite ?actions_of_app; simpl;
        rewrite ?app_nil_r; exact Hself.
    + pose proof (bypass_step_other 1 m (slot 1 ths) th ac m' th'
                    e1 (fun H => proj2 (proj2 Ha H))) as Hoth.
      specialize (Hoth
        ltac:(intros Hw; rewrite Hf;
              destruct (pc (slot 1 ths)); try discriminate; reflexivity)
        Et B1).
      destruct ac; simpl; rewrite ?actions_of_app, ?count_loads_app; simpl;
        rewrite ?app_nil_r, ?Z.add_0_r in *; exact Hoth.
  - assert (Hth : th = slot 1 ths) by (symmetry; apply slot_lookup, En).
    assert (S1 : slot 1 (<[1%nat := th']> ths) = th').
    { unfold slot. rewrite list_lookup_insert_eq; auto.
      eapply lookup_lt_Some; eauto. }
    assert (S0 : slot 0 (<[1%nat := th']> ths) = slot 0 ths).
    { unfold slot. rewrite list_lookup_insert_ne; auto. }
    rewrite S0, S1. rewrite <- Hth in *.
    split.
    + pose proof (bypass_step_other 0 m (slot 0 ths) th ac m' th'
                    e0 (fun H => proj2 (proj2 Hb H))) as Hoth.
      specialize (Hoth
        ltac:(intros Hw; rewrite Hf;
              destruct (pc (slot 0 ths)); try discriminate; reflexivity)
        Et B0).
      destruct ac; simpl; rewrite ?actions_of_app, ?count_loads_app; simpl;
        rewrite ?app_nil_r, ?Z.add_0_r in *; exact Hoth.
    + pose proof (bypass_step_self 1 m th (slot 0 ths) ac m' th' e1 E1 Et B1)
        as Hself.
      destruct ac; simpl; rewrite ?actions_of_app; simpl;
        rewrite ?app_nil_r; exact Hself.
Qed.

Lemma reachable_bypass_inv s : reachable N s → bypass_inv s.
Proof.
  intros H. cut (inv N s ∧ bypass_inv s); [tauto|].
  revert s H. apply rtc_ind_r.
  - split; [apply inv_init | apply bypass_inv_init].
  - intros y z _ Hyz [Hy Hb]. split; [eapply inv_step; eauto|].
    destruct Hyz as [[|n] Hs]; simpl in Hs.
    + eapply bypass_inv_main_step; eauto.
    + eapply bypass_inv_thread_step; eauto.
Qed.

End PetersonBypass.

Lemma peterson_at_read_bounds l : 0 <= Peterson.at_read l <= 1.
Proof. destruct l; simpl; lia. Qed.

(** X16. Waiting is bounded: while a thread is in its wait loop, the
    other thread gets through its own entry wait at most once, counted
    from the waiting thread's store to [turn].  When it has got through
    once and is in its wait loop again, [turn] holds the id of the
    thread that waited first, and the overtaker spins for as long as the
    memory stays as it is. *)
Theorem peterson_bounded_bypass (N : Z) (s : Peterson.state) (k j : nat)
    (th : Peterson.thread) :
  Peterson.reachable N s →
  (k = 0%nat ∧ j = 1%nat) ∨ (k = 1%nat ∧ j = 0%nat) →
  Peterson.threads s !! k = Some th →
  Peterson.in_wait (Peterson.pc th) = true →
  0 <= Peterson.overtakes k j s <= 1 ∧
  (Peterson.overtakes k j s = 1 →
   Peterson.in_wait
     (Peterson.pc (Peterson.slot j (Peterson.threads s))) = true →
   Peterson.turn (Peterson.memory s) = Peterson.id th ∧
   ∀ fuel, ∃ tj,
     Peterson.spin N (Peterson.memory s) fuel
       (Peterson.slot j (Peterson.threads s)) = Some tj ∧
     Peterson.in_wait (Peterson.pc tj) = true).
Proof.
  intros Hr Hkj Hth Hw.
  pose proof (reachable_inv N s Hr) as Hi.
  destruct (reachable_bypass_inv N s Hr) as [B0 B1].
  destruct (peterson_thread_ids N s k th Hi Hth) as (_ & Hid & _).
  { intros E. rewrite E in Hw. discriminate. }
  destruct (peterson_threads_cases N s k th Hi Hth) as [_ Hs].
  destruct Hi as [_ (Ha & Hb & Hf & _)].
  assert (Hin : Peterson.interested (Peterson.pc th) = true).
  { destruct (Peterson.pc th); try discriminate; reflexivity. }
  unfold Peterson.overtakes.
  destruct Hkj as [[-> ->] | [-> ->]]; rewrite Hs in Hw, Hin; rewrite Hid.
  - destruct (B0 Hw) as (He & Hle & Hturn).
    pose proof (peterson_at_read_bounds
                  (Peterson.pc (Peterson.slot 1 (Peterson.threads s)))).
    split; [lia|]. intros H1 Hwj.
    split; [apply Hturn; assumption|].
    intros fuel. apply peterson_spin_stays; auto.
    + rewrite (proj2 (proj2 Hb ltac:(intros E; rewrite E in Hwj; discriminate))).
      rewrite Hf, Hin. reflexivity.
    + rewrite (proj2 (proj2 Hb ltac:(intros E; rewrite E in Hwj; discriminate))).
      rewrite (Hturn H1 Hwj). reflexivity.
  - destruct (B1 Hw) as (He & Hle & Hturn).
    pose proof (peterson_at_read_bounds
                  (Peterson.pc (Peterson.slot 0 (Peterson.threads s)))).
    split; [lia|]. intros H1 Hwj.
    split; [apply Hturn; assumption|].
    intros fuel. apply peterson_spin_stays; auto.
    + rewrite (proj2 (proj2 Ha ltac:(intros E; rewrite E in Hwj; discriminate))).
      rewrite Hf, Hin. reflexivity.
    + rewrite (proj2 (proj2 Ha ltac:(intros E; rewrite E in Hwj; discriminate))).
      rewrite (Hturn H1 Hwj). reflexivity.
Qed.

Lemma peterson_bounded_bypass_witness :
  Peterson.reachable ITERATIONS Peterson.state_overtaken ∧
  Peterson.threads Peterson.state_overtaken !! 0%nat
    = Some (Peterson.Thread Peterson.Id0 Peterson.P_wait_turn 0 1 0 0) ∧
  Peterson.overtakes 0 1 Peterson.state_overtaken = 1 ∧
  Peterson.turn (Peterson.memory Peterson.state_overtaken) = 0.
Proof.
  assert (Hr : Peterson.reachable ITERATIONS Peterson.state_overtaken).
  { apply (peterson_run_reachable _ Peterson.sched_overtaken).
    vm_compute. reflexivity. }
  split; [exact Hr|]. split; [reflexivity|]. split; [reflexivity|].
  exact (proj1 (proj2
    (peterson_bounded_bypass ITERATIONS _ 0%nat 1%nat
       (Peterson.Thread Peterson.Id0 Peterson.P_wait_turn 0 1 0 0)
       Hr (or_introl (conj eq_refl eq_refl)) eq_refl eq_refl)
    eq_refl eq_refl)).
Defined.

(** ** The window between the read and the write of [counter] *)

(** X17. In the protected program the value a thread holds between
    [temp = counter] and [counter = temp] is never stale: in every state
    of every execution a thread about to add one holds the current
    [counter] in [temp], and a thread about to store holds the current
    [counter] plus one. *)
Theorem peterson_temp_fresh (N : Z) (s : Peterson.state) (n : nat)
    (th : Peterson.thread) :
  0 <= N <= INT_MAX →
  Peterson.reachable N s →
  Peterson.threads s !! n = Some th →
  (Peterson.pc th = Peterson.P_add →
   Peterson.temp th = Peterson.counter (Peterson.memory s)) ∧
  (Peterson.pc th = Peterson.P_write →
   Peterson.temp th = Peterson.counter (Peterson.memory s) + 1).
Proof.
  intros Hn Hr Hth.
  pose proof (reachable_inv N s Hr) as Hi.
  pose proof (reachable_counter_inv N Hn s Hr)
    as (_ & _ & _ & Ta & Tb & _).
  destruct (peterson_threads_cases N s n th Hi Hth) as [[-> | ->] ->];
    assumption.
Qed.

Lemma peterson_temp_fresh_witness :
  0 <= ITERATIONS <= INT_MAX ∧
  Peterson.reachable ITERATIONS Peterson.state_exit ∧
  ∃ s', Peterson.run ITERATIONS
          [Peterson.Thr 0; Peterson.Thr 0; Peterson.Thr 1; Peterson.Thr 1;
           Peterson.Thr 1]
          Peterson.state_exit = Some s' ∧
        Peterson.threads s' !! 1%nat
          = Some (Peterson.Thread Peterson.Id1 Peterson.P_add 1 0 0 1) ∧
        1 = Peterson.counter (Peterson.memory s').
Proof.
  assert (Hn : 0 <= ITERATIONS <= INT_MAX)
    by (unfold ITERATIONS, INT_MAX; lia).
  assert (Hr : Peterson.reachable ITERATIONS Peterson.state_exit).
  { apply (peterson_run_reachable _ Peterson.sched_exit).
    vm_compute. reflexivity. }
  split; [exact Hn|]. split; [exact Hr|].
  destruct (Peterson.run ITERATIONS
              [Peterson.Thr 0; Peterson.Thr 0; Peterson.Thr 1; Peterson.Thr 1;
               Peterson.Thr 1] Peterson.state_exit) as [s'|] eqn:E;
    [|vm_compute in E; discriminate].
  exists s'. split; [reflexivity|].
  assert (Hr' : Peterson.reachable ITERATIONS s').
  { unfold Peterson.reachable. etrans; [exact Hr|].
    eapply peterson_run_steps, E. }
  assert (Hth : Peterson.threads s' !! 1%nat
                = Some (Peterson.Thread Peterson.Id1 Peterson.P_add 1 0 0 1)).
  { vm_compute in E. injection E as <-. reflexivity. }
  split; [exact Hth|].
  exact (proj1 (peterson_temp_fresh ITERATIONS s' 1%nat _ Hn Hr' Hth) eq_refl).
Defined.

(** X18. The unsynchronised program has no mutual exclusion: for every
    [ITERATIONS] of at least 2 there is an execution in which both
    threads stand between their read and their write of [counter] at the
    same time, holding the same value 0 in [temp]. *)
Theorem race_no_mutual_exclusion (N : Z) :
  2 <= N →
  ∃ s,
    Race.reachable N s ∧
    Race.threads s =
      [ Race.Thread Race.R_sleep 0 0; Race.Thread Race.R_sleep 0 0 ] ∧
    Race.counter s = 0.
Proof.
  intros Hn.
  assert (Hq : (0 <? N ÷ 2) = true).
  { apply Z.ltb_lt. assert (1 <= N ÷ 2); [|lia].
    apply Z.quot_le_lower_bound; lia. }
  eexists. split; [|split].
  - apply (race_run_reachable N
             [Race.Main; Race.Main; Race.Main;
              Race.Thr 0; Race.Thr 0; Race.Thr 0;
              Race.Thr 1; Race.Thr 1; Race.Thr 1]).
    simpl. unfold Race.sys_step, Race.thread_step. simpl.
    rewrite Hq. simpl. rewrite Hq. simpl. reflexivity.
  - reflexivity.
  - reflexivity.
Qed.

Lemma race_no_mutual_exclusion_witness :
  2 <= ITERATIONS ∧
  ∃ s,
    Race.reachable ITERATIONS s ∧
    Race.threads s =
      [ Race.Thread Race.R_sleep 0 0; Race.Thread Race.R_sleep 0 0 ].
Proof.
  assert (Hn : 2 <= ITERATIONS) by (unfold ITERATIONS; lia).
  split; [exact Hn|].
  destruct (race_no_mutual_exclusion ITERATIONS Hn) as (s & Hr & Hth & _).
  exists s. auto.
Defined.

(** ** The protected program: every increment is bracketed *)

Section PetersonBracket.

Import Peterson.

Variable N : Z.

Lemma count_flag_stores_app v (l1 l2 : list action) :
  count_flag_stores v (l1 ++ l2) =
  count_flag_stores v l1 + count_flag_stores v l2.
Proof.
  induction l1 as [|x l1 IH]; simpl; [lia|].
  destruct x; rewrite ?IH; lia.
Qed.

Lemma bracket_thread_step m th ac m' th' acts :
  thread_step N m th = Some (ac, m', th') →
  bracket_rel th acts → bracket_rel th' (acts ++ [ac]).
Proof.
  intros Hs [H1 H2]. unfold bracket_rel.
  rewrite !count_flag_stores_app, count_stores_app.
  unfold thread_step in Hs.
  destruct th as [p l k o j t]. simpl in *.
  destruct l; simpl in Hs.
  all: try match type of Hs with
         | context [flag_store ?f ?x ?v] =>
             destruct (flag_store f x v); simpl in Hs; [|discriminate]
         | context [flag_load ?f ?x] =>
             destruct (flag_load f x) as [[|]|]; simpl in Hs;
             try discriminate
         | context [?x <? ?y] => destruct (Z.ltb_spec x y)
         | context [?x =? ?y] => destruct (Z.eqb_spec x y)
         end.
  all: simplify_eq; simpl in *; lia.
Qed.

Lemma bracket_inv_init : bracket_inv init.
Proof. split; split; reflexivity. Qed.

Lemma bracket_inv_main_step s s' :
  inv N s → bracket_inv s → main_step N s = Some s' → bracket_inv s'.
Proof.
  intros [(Hsh & _) _] Hb Hs.
  destruct s as [l h1 h2 ths m h]. unfold main_step in Hs.
  unfold bracket_inv, shape in *. simpl in *.
  destruct l; simpl in *.
  all: destruct ths as [|a [|b [|c ths]]]; simpl in *;
    destruct_and? Hsh; try discriminate.
  all: repeat case_match; simplify_eq; simpl.
  all: rewrite !actions_of_app; simpl; rewrite !app_nil_r.
  all: exact Hb.
Qed.

Lemma bracket_inv_thread_step s s' n :
  inv N s → bracket_inv s → sys_step N (Thr n) s = Some s' → bracket_inv s'.
Proof.
  intros Hi [B0 B1] Hs.
  unfold sys_step in Hs.
  destruct (threads s !! n) as [th|] eqn:En; simpl in Hs; [|discriminate].
  destruct (thread_step N (memory s) th) as [[[ac m'] th']|] eqn:Et;
    simpl in Hs; [|discriminate].
  injection Hs as <-.
  destruct (peterson_threads_cases N s n th Hi En) as [Hn Hth].
  unfold bracket_inv. simpl. rewrite !actions_of_app. simpl.
  destruct Hn as [-> | ->]; simpl; rewrite app_nil_r.
  - replace (slot 0 (<[0%nat := th']> (threads s))) with th'.
    2:{ unfold slot. rewrite list_lookup_insert_eq; auto.
        eapply lookup_lt_Some; eauto. }
    replace (slot 1 (<[0%nat := th']> (threads s)))
      with (slot 1 (threads s)).
    2:{ unfold slot. rewrite list_lookup_insert_ne; auto. }
    split; [|exact B1].
    eapply bracket_thread_step; eauto. rewrite Hth. exact B0.
  - replace (slot 1 (<[1%nat := th']> (threads s))) with th'.
    2:{ unfold slot. rewrite list_lookup_insert_eq; auto.
        eapply lookup_lt_Some; eauto. }
    replace (slot 0 (<[1%nat := th']> (threads s)))
      with (slot 0 (threads s)).
    2:{ unfold slot. rewrite list_lookup_insert_ne; auto. }
    split; [exact B0|].
    eapply bracket_thread_step; eauto. rewrite Hth. exact B1.
Qed.

Lemma reachable_bracket_inv s : reachable N s → bracket_inv s.
Proof.
  intros H. cut (inv N s ∧ bracket_inv s); [tauto|].
  revert s H. apply rtc_ind_r.
  - split; [apply inv_init | apply bracket_inv_init].
  - intros y z _ Hyz [Hy Hb]. split; [eapply inv_step; eauto|].
    destruct Hyz as [[|n] Hs]; simpl in Hs.
    + eapply bracket_inv_main_step; eauto.
    + eapply bracket_inv_thread_step; eauto.
Qed.

End PetersonBracket.

(** X19. In the protected program every increment is bracketed by an
    entry and an exit: at every instant, for each thread, the number of
    its exit stores, of its stores to [counter] and of its entry stores
    [flag[id] = true] go up in this order and differ by one at most;
    outside the region between entry and exit the three are equal. *)
Theorem peterson_increments_bracketed (N : Z) (s : Peterson.state) (n : nat)
    (th : Peterson.thread) :
  Peterson.reachable N s →
  Peterson.threads s !! n = Some th →
  Peterson.count_flag_stores false
    (Peterson.actions_of (Peterson.Thr n) (Peterson.hist s))
  <= Peterson.count_stores
       (Peterson.actions_of (Peterson.Thr n) (Peterson.hist s))
  <= Peterson.count_flag_stores true
       (Peterson.actions_of (Peterson.Thr n) (Peterson.hist s)) ∧
  Peterson.count_flag_stores true
    (Peterson.actions_of (Peterson.Thr n) (Peterson.hist s))
  <= Peterson.count_flag_stores false
       (Peterson.actions_of (Peterson.Thr n) (Peterson.hist s)) + 1 ∧
  (Peterson.interested (Peterson.pc th) = false →
   Peterson.count_flag_stores true
     (Peterson.actions_of (Peterson.Thr n) (Peterson.hist s))
   = Peterson.count_stores
       (Peterson.actions_of (Peterson.Thr n) (Peterson.hist s)) ∧
   Peterson.count_stores
     (Peterson.actions_of (Peterson.Thr n) (Peterson.hist s))
   = Peterson.count_flag_stores false
       (Peterson.actions_of (Peterson.Thr n) (Peterson.hist s))).
Proof.
  intros Hr Hth.
  pose proof (reachable_inv N s Hr) as Hi.
  destruct (reachable_bracket_inv N s Hr) as [B0 B1].
  destruct (peterson_threads_cases N s n th Hi Hth) as [Hn Hs].
  assert (Hb : Peterson.bracket_rel th
                 (Peterson.actions_of (Peterson.Thr n) (Peterson.hist s))).
  { destruct Hn as [-> | ->]; rewrite Hs; assumption. }
  destruct Hb as [H1 H2].
  destruct (Peterson.pc th); simpl in *; repeat split; intros;
    try discriminate; lia.
Qed.

Lemma peterson_increments_bracketed_witness :
  Peterson.reachable ITERATIONS Peterson.state_exit ∧
  Peterson.count_flag_stores false
    (Peterson.actions_of (Peterson.Thr 0) (Peterson.hist Peterson.state_exit))
  <= Peterson.count_stores
       (Peterson.actions_of (Peterson.Thr 0)
          (Peterson.hist Peterson.state_exit))
  <= Peterson.count_flag_stores true
       (Peterson.actions_of (Peterson.Thr 0)
          (Peterson.hist Peterson.state_exit)).
Proof.
  assert (Hr : Peterson.reachable ITERATIONS Peterson.state_exit).
  { apply (peterson_run_reachable _ Peterson.sched_exit).
    vm_compute. reflexivity. }
  split; [exact Hr|].
  exact (proj1 (peterson_increments_bracketed ITERATIONS _ 0%nat
                  (Peterson.Thread Peterson.Id0 Peterson.P_clear 0 1 0 1)
                  Hr eq_refl)).
Defined.
